(** * ClassChat server: routing, registry and group directory

    A shallow embedding of [Charlie_Meyers_C00513476_server.py].  The two
    module-level dictionaries [clients] and [groups] and the socket layer
    are one explicit state record; every Python function is a state
    transformer that may raise.  A mutation made before an exception is
    raised is kept, as in Python. *)

From Stdlib Require Import String List Bool Arith Lia.
Import ListNotations.
Local Open Scope string_scope.
Local Open Scope list_scope.

Set Implicit Arguments.

(** ** Python dictionaries with string keys

    [clients] and [groups] are Python dicts.  Iteration follows insertion
    order, assigning to a key that is present keeps its position, and a new
    key goes last; the order decides who is served before a failing write,
    so the dictionary is an association list with these updates. *)

Module PyDict.

Definition dict (V : Type) := list (string * V).

Fixpoint get {V} (d : dict V) (k : string) : option V :=
  match d with
  | [] => None
  | (k', v) :: d' => if String.eqb k k' then Some v else get d' k
  end.

Definition mem {V} (d : dict V) (k : string) : bool :=
  match get d k with Some _ => true | None => false end.

(** [d[k] = v] *)
Fixpoint set {V} (d : dict V) (k : string) (v : V) : dict V :=
  match d with
  | [] => [(k, v)]
  | (k', v') :: d' =>
      if String.eqb k k' then (k', v) :: d' else (k', v') :: set d' k v
  end.

(** [del d[k]], only ever called on a key that is present *)
Fixpoint del {V} (d : dict V) (k : string) : dict V :=
  match d with
  | [] => []
  | (k', v') :: d' =>
      if String.eqb k k' then d' else (k', v') :: del d' k
  end.

Definition keys {V} (d : dict V) : list string := map fst d.
Definition values {V} (d : dict V) : list V := map snd d.

(** What assignment and deletion maintain: a key occurs once. *)
Definition wf {V} (d : dict V) : Prop := NoDup (keys d).

End PyDict.

Import PyDict.

(** ** Exceptions, sockets and the server state *)

Inductive exn : Type :=
| ConnectionResetError
| BrokenPipeError
| OSError              (* any other socket error *)
| UnicodeDecodeError
| JSONDecodeError
| KeyError
| TypeError.

Inductive result (A : Type) : Type :=
| Val (a : A)
| Exc (e : exn).
Arguments Val {A} a.
Arguments Exc {A} e.

(** A socket object is known by its number. *)
Definition sock := nat.

(** The dict built by [message_to_json]; what goes on the wire is
    [json.dumps] of it, encoded as UTF-8. *)
Record msg_data : Type := MsgData {
  status : string;
  sender : string;
  receiver : string;
  text : string
}.

Definition message_to_json (status sender receiver message : string)
  : msg_data :=
  {| status := status; sender := sender;
     receiver := receiver; text := message |}.

Record server : Type := Server {
  clients : dict sock;              (* {username: socket} *)
  groups : dict (list string);      (* {group_name: [usernames]} *)
  wire : list (sock * msg_data);    (* payloads written so far, oldest first *)
  closed : list sock;               (* sockets the server has closed *)
  faulty : list (sock * exn)        (* sockets whose peer is gone, with the
                                       error a write raises *)
}.

Definition with_clients (c : dict sock) (st : server) : server :=
  {| clients := c; groups := groups st; wire := wire st;
     closed := closed st; faulty := faulty st |}.

Definition with_groups (g : dict (list string)) (st : server) : server :=
  {| clients := clients st; groups := g; wire := wire st;
     closed := closed st; faulty := faulty st |}.

Definition with_wire (w : list (sock * msg_data)) (st : server) : server :=
  {| clients := clients st; groups := groups st; wire := w;
     closed := closed st; faulty := faulty st |}.

Definition with_closed (c : list sock) (st : server) : server :=
  {| clients := clients st; groups := groups st; wire := wire st;
     closed := c; faulty := faulty st |}.

Definition with_faulty (f : list (sock * exn)) (st : server) : server :=
  {| clients := clients st; groups := groups st; wire := wire st;
     closed := closed st; faulty := f |}.

(** ** The monad of server code: state, plus an exception or a value *)

Definition M (A : Type) : Type := server -> server * result A.

Definition ret {A} (a : A) : M A := fun st => (st, Val a).

Definition raise {A} (e : exn) : M A := fun st => (st, Exc e).

Definition bind {A B} (m : M A) (k : A -> M B) : M B :=
  fun st =>
    match m st with
    | (st', Val a) => k a st'
    | (st', Exc e) => (st', Exc e)
    end.

Notation "x <- m ;; k" := (bind m (fun x => k))
  (at level 61, m at next level, right associativity).
Notation "m ;; k" := (bind m (fun _ => k))
  (at level 61, right associativity).

(** [for x in xs: body(x)]; an exception in the body leaves the loop. *)
Fixpoint for_each {A} (xs : list A) (body : A -> M unit) : M unit :=
  match xs with
  | [] => ret tt
  | x :: xs' => body x ;; for_each xs' body
  end.

(** [x in xs] on a Python list of strings *)
Definition list_in (x : string) (xs : list string) : bool :=
  existsb (String.eqb x) xs.

Fixpoint fault_of (f : list (sock * exn)) (s : sock) : option exn :=
  match f with
  | [] => None
  | (s', e) :: f' => if Nat.eqb s s' then Some e else fault_of f' s
  end.

Definition is_closed (st : server) (s : sock) : bool :=
  existsb (Nat.eqb s) (closed st).

(** [s.sendall(payload)]: the payload reaches the peer, or the call raises
    and nothing is written. *)
Definition sendall (s : sock) (payload : msg_data) : M unit :=
  fun st =>
    if is_closed st s then (st, Exc OSError)
    else match fault_of (faulty st) s with
         | Some e => (st, Exc e)
         | None => (with_wire (wire st ++ [(s, payload)]) st, Val tt)
         end.

(** A write on [s] succeeds. *)
Definition writable (st : server) (s : sock) : bool :=
  negb (is_closed st s) &&
  match fault_of (faulty st) s with Some _ => false | None => true end.

(** ** The server's functions *)

Definition send_system_message (user message : string) : M unit :=
  fun st =>
    match get (clients st) user with
    | Some s => sendall s (message_to_json "system" "SERVER" user message) st
    | None => (st, Val tt)
    end.

Definition broadcast_system_message (message : string) : M unit :=
  fun st =>
    let msg_json := message_to_json "system" "SERVER" "ALL" message in
    for_each (values (clients st)) (fun client => sendall client msg_json) st.

Definition send_private_message (sender receiver text : string) : M unit :=
  fun st =>
    match get (clients st) receiver with
    | Some s => sendall s (message_to_json "private" sender receiver text) st
    | None =>
        send_system_message sender ("User " ++ receiver ++ " not found.") st
    end.

(** The body of the loop over [groups[group_name]]. *)
Definition group_deliver (sender : string) (msg_json : msg_data)
  (user : string) : M unit :=
  fun st =>
    if negb (String.eqb user sender) then
      match get (clients st) user with
      | Some s => sendall s msg_json st
      | None => (st, Val tt)
      end
    else (st, Val tt).

Definition group_error (group_name : string) : string :=
  "Group " ++ group_name ++ " does not exist or you are not a member.".

Definition send_group_message (sender group_name text : string) : M unit :=
  fun st =>
    match get (groups st) group_name with
    | Some members =>
        if list_in sender members then
          let msg_json := message_to_json "group" sender group_name text in
          for_each members (group_deliver sender msg_json) st
        else send_system_message sender (group_error group_name) st
    | None => send_system_message sender (group_error group_name) st
    end.

Definition create_group (sender group_name : string) : M unit :=
  fun st =>
    if negb (mem (groups st) group_name) then
      send_system_message sender
        ("Group " ++ group_name ++ " created successfully.")
        (with_groups (set (groups st) group_name [sender]) st)
    else
      send_system_message sender
        ("Group " ++ group_name ++ " already exists.") st.

Definition join_group (sender group_name : string) : M unit :=
  fun st =>
    match get (groups st) group_name with
    | Some members =>
        if negb (list_in sender members) then
          send_system_message sender
            ("You have joined group " ++ group_name ++ ".")
            (with_groups (set (groups st) group_name (members ++ [sender])) st)
        else
          send_system_message sender
            ("You are already in group " ++ group_name ++ ".") st
    | None =>
        send_system_message sender
          ("Group " ++ group_name ++ " does not exist.") st
    end.

(** What [json.loads] returns.  The model covers objects whose values are
    strings, which is what [message_to_json] produces on the client side;
    every other JSON value (list, string, number, [null]) is [JOther]. *)
Inductive json_value : Type :=
| JObject (d : dict string)
| JOther.

(** [data[key]] on the parsed message: [KeyError] on a dict without the
    key, [TypeError] on a value that is no dict. *)
Definition subscript (data : json_value) (key : string) : M string :=
  match data with
  | JObject d =>
      match get d key with
      | Some v => ret v
      | None => raise KeyError
      end
  | JOther => raise TypeError
  end.

Definition process_message (data : json_value) (sender : string) : M unit :=
  status <- subscript data "status" ;;
  receiver <- subscript data "receiver" ;;
  text <- subscript data "text" ;;
  if String.eqb status "private" then send_private_message sender receiver text
  else if String.eqb status "group" then send_group_message sender receiver text
  else if String.eqb status "create" then create_group sender receiver
  else if String.eqb status "join" then join_group sender receiver
  else ret tt.

(** *** The Session Registry operations inside [handle_client] *)

(** [clients[username] = client_socket] *)
Definition register (username : string) (s : sock) : M unit :=
  fun st => (with_clients (set (clients st) username s) st, Val tt).

(** [if username in clients: del clients[username]] *)
Definition deregister (username : string) : M unit :=
  fun st =>
    if mem (clients st) username
    then (with_clients (del (clients st) username) st, Val tt)
    else (st, Val tt).

(** [clients[identity]], guarded by [identity in clients] at every use *)
Definition lookup (st : server) (identity : string) : option sock :=
  get (clients st) identity.

(** [client_socket.close()] *)
Definition close (s : sock) : M unit :=
  fun st => (with_closed (s :: closed st) st, Val tt).

(** The [finally] block. *)
Definition cleanup (s : sock) (username : string) : M unit :=
  deregister username ;;
  close s ;;
  broadcast_system_message (username ++ " has left the chat.").

(** [except (ConnectionResetError, BrokenPipeError)] *)
Definition caught (e : exn) : bool :=
  match e with
  | ConnectionResetError | BrokenPipeError => true
  | _ => false
  end.

(** How the [while True] loop is left: by [break], or not yet, the worker
    being blocked in [recv] with no more input. *)
Inductive loop_exit : Type := Break | Blocked.

(** How a worker thread stands after its input: still waiting in [recv],
    returned from [handle_client], or ended by an exception that left
    [handle_client]. *)
Inductive ending : Type :=
| Waiting
| Returned
| Died (e : exn).

Section Worker.

(** [json.loads], on the decoded text of one [recv]. *)
Variable json_loads : string -> result json_value.

Definition loads (message : string) : M json_value :=
  fun st => (st, json_loads message).

(** The loop of [handle_client].  Each element of [reads] is what one
    [client_socket.recv(1024).decode('utf-8')] gives: a text, or the
    exception raised by [recv] or by [decode]. *)
Fixpoint serve (username : string) (reads : list (result string))
  : M loop_exit :=
  match reads with
  | [] => ret Blocked
  | Exc e :: _ => raise e
  | Val message :: rest =>
      if String.eqb message "" then ret Break
      else
        data <- loads message ;;
        process_message data username ;;
        serve username rest
  end.

(** [try: ... except (...): ... finally: ...] around the loop: the
    [finally] block runs however the loop is left; an exception that is
    not caught is raised again after it, unless the block itself raises. *)
Definition session (s : sock) (username : string)
  (reads : list (result string)) (st : server) : server * ending :=
  match serve username reads st with
  | (st1, Val Blocked) => (st1, Waiting)
  | (st1, Val Break) =>
      match cleanup s username st1 with
      | (st2, Val _) => (st2, Returned)
      | (st2, Exc e') => (st2, Died e')
      end
  | (st1, Exc e) =>
      match cleanup s username st1 with
      | (st2, Val _) => (st2, if caught e then Returned else Died e)
      | (st2, Exc e') => (st2, Died e')
      end
  end.

(** [handle_client(client_socket)]: [hello] is the first [recv], decoded;
    an exception there leaves the function before anything is stored. *)
Definition handle_client (client_socket : sock) (hello : result string)
  (reads : list (result string)) (st : server) : server * ending :=
  match hello with
  | Exc e => (st, Died e)
  | Val username =>
      session client_socket username reads
        (fst (register username client_socket st))
  end.

(** *** Several workers

    Every critical section runs under the one [lock], and workers
    interleave between their reads.  The server with its threads is a
    state machine over the events of the sockets: a connection whose first
    [recv] arrived, a later [recv] on a connection, and the loss of a
    peer, after which writes on its socket raise.  One [Recv] is one pass
    of the worker's loop, together with the [finally] block when the pass
    leaves the loop (its two critical sections are taken as one step).
    A thread keeps its own [username]. *)

Record world : Type := World {
  srv : server;
  threads : list (sock * string)
}.

Inductive event : Type :=
| Accept (s : sock) (hello : result string)
| Recv (s : sock) (r : result string)
| Lost (s : sock) (e : exn).

Fixpoint thread_of (ts : list (sock * string)) (s : sock) : option string :=
  match ts with
  | [] => None
  | (s', u) :: ts' => if Nat.eqb s s' then Some u else thread_of ts' s
  end.

Definition drop_thread (ts : list (sock * string)) (s : sock)
  : list (sock * string) :=
  filter (fun t => negb (Nat.eqb (fst t) s)) ts.

(** [server.accept()] returns a new socket object each time. *)
Definition fresh (w : world) (s : sock) : bool :=
  match thread_of (threads w) s with
  | Some _ => false
  | None => negb (is_closed (srv w) s)
  end.

Definition step (w : world) (ev : event) : world :=
  match ev with
  | Accept s hello =>
      if fresh w s then
        match hello with
        | Exc _ => w
        | Val username =>
            {| srv := fst (register username s (srv w));
               threads := threads w ++ [(s, username)] |}
        end
      else w
  | Recv s r =>
      match thread_of (threads w) s with
      | None => w
      | Some username =>
          match session s username [r] (srv w) with
          | (st', Waiting) => {| srv := st'; threads := threads w |}
          | (st', _) =>
              {| srv := st'; threads := drop_thread (threads w) s |}
          end
      end
  | Lost s e =>
      {| srv := with_faulty ((s, e) :: faulty (srv w)) (srv w);
         threads := threads w |}
  end.

Definition run (w : world) (evs : list event) : world :=
  fold_left step evs w.

End Worker.

(** The server as the module starts it: [clients = {}], [groups = {}]. *)
Definition boot (down : list (sock * exn)) : server :=
  {| clients := []; groups := []; wire := []; closed := []; faulty := down |}.


(** * Notions used to state the properties *)

(** ** Writes *)

(** The exception a write on [s] raises, if any. *)
Definition write_error (st : server) (s : sock) : option exn :=
  if is_closed st s then Some OSError else fault_of (faulty st) s.

(** The sockets of [ss] reached by a loop of writes: those before the
    first failing one. *)
Fixpoint served (st : server) (ss : list sock) : list sock :=
  match ss with
  | [] => []
  | s :: ss' =>
      match write_error st s with
      | None => s :: served st ss'
      | Some _ => []
      end
  end.

(** The exception that ends such a loop. *)
Fixpoint first_error (st : server) (ss : list sock) : option exn :=
  match ss with
  | [] => None
  | s :: ss' =>
      match write_error st s with
      | None => first_error st ss'
      | Some e => Some e
      end
  end.

(** What the loop gives back: nothing, or that exception. *)
Definition loop_result (st : server) (ss : list sock) : result unit :=
  match first_error st ss with
  | None => Val tt
  | Some e => Exc e
  end.

Definition all_writable (st : server) (ss : list sock) : Prop :=
  Forall (fun s => writable st s = true) ss.

(** [st] with [out] written after what was written before. *)
Definition wrote (out : list (sock * msg_data)) (st : server) : server :=
  with_wire (wire st ++ out) st.

(** One payload for each socket of a list. *)
Definition to_each (m : msg_data) (ss : list sock) : list (sock * msg_data) :=
  map (fun s => (s, m)) ss.

(** The system notice for [user]. *)
Definition notice (user message : string) : msg_data :=
  message_to_json "system" "SERVER" user message.

(** The sockets a group message of [sender] goes to: in the order of the
    member list, the registered members other than [sender]. *)
Definition group_targets (st : server) (sender : string)
  (members : list string) : list sock :=
  flat_map
    (fun user =>
       if negb (String.eqb user sender) then
         match get (clients st) user with
         | Some s => [s]
         | None => []
         end
       else [])
    members.

(** ** Sequences of registry operations *)

Inductive registry_op : Type :=
| Register (identity : string) (handle : sock)
| Deregister (identity : string).

Definition apply_op (st : server) (op : registry_op) : server :=
  match op with
  | Register identity handle => fst (register identity handle st)
  | Deregister identity => fst (deregister identity st)
  end.

Definition apply_ops (st : server) (ops : list registry_op) : server :=
  fold_left apply_op ops st.

(** [op] is a [register] or a [deregister] of [identity]. *)
Definition concerns (identity : string) (op : registry_op) : Prop :=
  match op with
  | Register i _ => i = identity
  | Deregister i => i = identity
  end.

(** In [ops], [handle] is the one supplied by the most recent
    [register] of [identity], and no [deregister] of [identity] follows. *)
Definition latest_register (ops : list registry_op) (identity : string)
  (handle : sock) : Prop :=
  exists before after,
    ops = before ++ Register identity handle :: after /\
    Forall (fun op => ~ concerns identity op) after.

(** ** The group directory *)

(** Every group has a member, and no member twice. *)
Definition groups_inv (st : server) : Prop :=
  forall g members,
    get (groups st) g = Some members -> members <> [] /\ NoDup members.

(** From [st] to [st'] every group is kept, its members are kept in
    place, and members are only added behind them. *)
Definition groups_grow (st st' : server) : Prop :=
  forall g members,
    get (groups st) g = Some members ->
    exists joined, get (groups st') g = Some (members ++ joined).

(** ** Input that does not decode *)

Definition has_key (d : dict string) (k : string) : bool := mem d k.

(** A non-empty read that is no envelope: [decode('utf-8')] raises, or
    [json.loads] raises, or it returns something other than a dict, or a
    dict that lacks one of the keys [process_message] reads.  The key
    [sender] is not one of them: the server takes the sender from the
    connection. *)
Definition malformed (json_loads : string -> result json_value)
  (r : result string) : bool :=
  match r with
  | Exc UnicodeDecodeError => true
  | Exc _ => false
  | Val message =>
      negb (String.eqb message "") &&
      match json_loads message with
      | Exc _ => true
      | Val JOther => true
      | Val (JObject d) =>
          negb (has_key d "status" && has_key d "receiver" && has_key d "text")
      end
  end.

(** ** Rejected operations *)

Definition known_kind (kind : string) : bool :=
  String.eqb kind "private" || String.eqb kind "group" ||
  String.eqb kind "create" || String.eqb kind "join".

(** The text of the notice with which the operation [kind] on [target] by
    [sender] is refused in [st]; none when the operation is carried out,
    and none for a kind that is not one of the four. *)
Definition refusal (st : server) (sender kind target : string)
  : option string :=
  if String.eqb kind "private" then
    if mem (clients st) target then None
    else Some ("User " ++ target ++ " not found.")%string
  else if String.eqb kind "group" then
    match get (groups st) target with
    | Some members =>
        if list_in sender members then None else Some (group_error target)
    | None => Some (group_error target)
    end
  else if String.eqb kind "create" then
    if mem (groups st) target
    then Some ("Group " ++ target ++ " already exists.")%string
    else None
  else if String.eqb kind "join" then
    match get (groups st) target with
    | Some members =>
        if list_in sender members
        then Some ("You are already in group " ++ target ++ ".")%string
        else None
    | None => Some ("Group " ++ target ++ " does not exist.")%string
    end
  else None.

(** ** Isolation of write failures, as a broadcast would have it

    Each registered session with a working socket gets the system
    broadcast whatever happens to the other sockets, and a group message
    never ends in an exception for its sender. *)

Definition broadcast_reaches_all : Prop :=
  forall st message user s,
    get (clients st) user = Some s ->
    writable st s = true ->
    In (s, message_to_json "system" "SERVER" "ALL" message)
       (wire (fst (broadcast_system_message message st))).

Definition group_send_never_raises : Prop :=
  forall st sender group_name text,
    snd (send_group_message sender group_name text st) = Val tt.

(** ** Relations between the state before and after a computation *)

(** [m] leaves [groups] alone. *)
Definition keeps_groups {A} (m : M A) : Prop :=
  forall st, groups (fst (m st)) = groups st.

(** [m] takes every state to one related to it by [R]. *)
Definition respects (R : server -> server -> Prop) {A} (m : M A) : Prop :=
  forall st, R st (fst (m st)).

(** The envelopes, reads and events that a condition [allowed] on the kind
    and the target lets through. *)
Definition data_allowed (allowed : string -> string -> Prop)
  (data : json_value) : Prop :=
  match data with
  | JObject d =>
      forall kind target,
        get d "status" = Some kind -> get d "receiver" = Some target ->
        allowed kind target
  | JOther => True
  end.

Definition read_allowed (allowed : string -> string -> Prop)
  (json_loads : string -> result json_value) (r : result string) : Prop :=
  match r with
  | Val message =>
      match json_loads message with
      | Val data => data_allowed allowed data
      | Exc _ => True
      end
  | Exc _ => True
  end.

Definition event_allowed (allowed : string -> string -> Prop)
  (json_loads : string -> result json_value) (ev : event) : Prop :=
  match ev with
  | Recv _ r => read_allowed allowed json_loads r
  | _ => True
  end.

(** The invariant of the directory together with its growth. *)
Definition directory_step (st st' : server) : Prop :=
  (groups_inv st -> groups_inv st') /\ groups_grow st st'.



(** ** Closing a connection *)

(** The state once [username] is deregistered and the socket closed, as
    the [finally] block has it before it broadcasts. *)
Definition departed (s : sock) (username : string) (st : server) : server :=
  with_closed (s :: closed st) (with_clients (del (clients st) username) st).

(** The departure notice. *)
Definition farewell (username : string) : msg_data :=
  message_to_json "system" "SERVER" "ALL" (username ++ " has left the chat.").

(** ** A scenario with three clients

    [json.loads] on the three messages used below, each named by the
    command line the client built it from. *)
Definition sample_loads (message : string) : result json_value :=
  let envelope kind target body :=
    Val (JObject [("status", kind); ("sender", "alice");
                  ("receiver", target); ("text", body)]) in
  if String.eqb message "/create proj" then envelope "create" "proj" ""
  else if String.eqb message "/join proj" then envelope "join" "proj" ""
  else if String.eqb message "/group proj hi" then envelope "group" "proj" "hi"
  else Exc JSONDecodeError.

(** alice, bob and carol are connected and in the group [proj]; the peer
    of bob's socket is gone, which the server has not noticed yet. *)
Definition bob_is_gone : server :=
  {| clients := [("alice", 1); ("bob", 2); ("carol", 3)];
     groups := [("proj", ["alice"; "bob"; "carol"])];
     wire := []; closed := []; faulty := [(2, BrokenPipeError)] |}.

(** * The client

    [Charlie_Meyers_C00513476_client.py]: what the client makes of a line
    typed by the user, and what it shows for a message of the server.
    Characters are the code points below 256. *)

From Stdlib Require Import Ascii.

(** [c.lower()] on these characters: the letters [A]-[Z] and the capital
    letters of Latin-1 ([192]-[222] but for the sign [215]) move up by
    32. *)
Definition lower_char (c : Ascii.ascii) : Ascii.ascii :=
  let n := Ascii.nat_of_ascii c in
  if (Nat.leb 65 n && Nat.leb n 90) ||
     (Nat.leb 192 n && Nat.leb n 222 && negb (Nat.eqb n 215))
  then Ascii.ascii_of_nat (n + 32)
  else c.

(** [message.lower()] *)
Fixpoint lower (s : string) : string :=
  match s with
  | EmptyString => EmptyString
  | String c s' => String (lower_char c) (lower s')
  end.

(** The text up to the first space, and the text behind that space if
    there is one. *)
Fixpoint cut (s : string) : string * option string :=
  match s with
  | EmptyString => (EmptyString, None)
  | String c s' =>
      if Ascii.eqb c " "%char then (EmptyString, Some s')
      else let (a, r) := cut s' in (String c a, r)
  end.

(** [s.split(" ", maxsplit)]: cut at the first [maxsplit] spaces; two
    spaces in a row give an empty piece. *)
Fixpoint split (maxsplit : nat) (s : string) : list string :=
  match maxsplit with
  | 0 => [s]
  | S n =>
      match cut s with
      | (a, Some r) => a :: split n r
      | (_, None) => [s]
      end
  end.

(** [" ".join(pieces)] *)
Fixpoint join (pieces : list string) : string :=
  match pieces with
  | [] => ""
  | [p] => p
  | p :: rest => p ++ " " ++ join rest
  end.

Fixpoint has_space (s : string) : bool :=
  match s with
  | EmptyString => false
  | String c s' => Ascii.eqb c " "%char || has_space s'
  end.

(** What one pass of the loop of [start_client] does with the line read
    by [input]. *)
Inductive action : Type :=
| Send (msg_json : msg_data)   (* [client.sendall(msg_json.encode('utf-8'))] *)
| Help                         (* [print_command_list()] *)
| Invalid                      (* [print("Invalid Command.\n")] *)
| Exit.                        (* [client.close()], and the loop is left *)

Definition interpret (username message : string) : action :=
  if String.eqb (lower message) "/exit" then Exit
  else
    let command := split 2 message in
    let c0 := nth 0 command "" in
    let c1 := nth 1 command "" in
    let c2 := nth 2 command "" in
    if String.eqb c0 "/private" && Nat.eqb (length command) 3 then
      Send (message_to_json "private" username c1 c2)
    else if String.eqb c0 "/group" && Nat.eqb (length command) 3 then
      Send (message_to_json "group" username c1 c2)
    else if String.eqb c0 "/create" && Nat.eqb (length command) 2 then
      Send (message_to_json "create" username c1 "")
    else if String.eqb c0 "/join" && Nat.eqb (length command) 2 then
      Send (message_to_json "join" username c1 "")
    else if String.eqb c0 "/help" && Nat.eqb (length command) 1 then Help
    else Invalid.

(** The loop of [start_client] over the lines typed: the actions taken,
    up to the one that leaves the loop. *)
Fixpoint client_loop (username : string) (lines : list string)
  : list action :=
  match lines with
  | [] => []
  | message :: rest =>
      match interpret username message with
      | Exit => [Exit]
      | a => a :: client_loop username rest
      end
  end.

(** The dict that [json.dumps] is given, key by key. *)
Definition as_dict (m : msg_data) : dict string :=
  [("status", status m); ("sender", sender m);
   ("receiver", receiver m); ("text", text m)].

(** [data[key]] in the client, where nothing but the value matters. *)
Definition item (data : json_value) (key : string) : result string :=
  match data with
  | JObject d =>
      match get d key with
      | Some v => Val v
      | None => Exc KeyError
      end
  | JOther => Exc TypeError
  end.

Definition and_then {A B} (r : result A) (k : A -> result B) : result B :=
  match r with
  | Val a => k a
  | Exc e => Exc e
  end.

(** The line [receive_messages] prints for a parsed message; the keys are
    read in the order of the f-string. *)
Definition display (data : json_value) : result string :=
  and_then (item data "status") (fun kind =>
  if String.eqb kind "group" then
    and_then (item data "receiver") (fun r =>
    and_then (item data "sender") (fun s =>
    and_then (item data "text") (fun t =>
    Val ("[GROUP: " ++ r ++ " | FROM: " ++ s ++ "] " ++ t)%string)))
  else if String.eqb kind "private" then
    and_then (item data "sender") (fun s =>
    and_then (item data "text") (fun t =>
    Val ("[FROM: " ++ s ++ "] " ++ t)%string))
  else
    and_then (item data "sender") (fun s =>
    and_then (item data "text") (fun t =>
    Val ("[" ++ s ++ "] " ++ t)%string))).

(** [receive_messages]: the lines printed for the reads of the socket,
    and whether the loop was left.  Whatever is raised is caught by the
    bare [except], which prints and leaves. *)
Fixpoint receive_messages (json_loads : string -> result json_value)
  (reads : list (result string)) : list string * bool :=
  match reads with
  | [] => ([], false)
  | Exc _ :: _ => (["Connection lost"], true)
  | Val message :: rest =>
      if String.eqb message "" then ([], true)
      else
        match and_then (json_loads message) display with
        | Val line =>
            let (lines, left) := receive_messages json_loads rest in
            (line :: lines, left)
        | Exc _ => (["Connection lost"], true)
        end
  end.

(** * Further notions for the server *)

(** What was written from [st] to [st']. *)
Definition written (st st' : server) : list (sock * msg_data) :=
  skipn (length (wire st)) (wire st').

(** A payload that the dispatch of a message of [user] may write on [s]
    in [st]: a private message of [user] on the socket of its target, a
    group message of [user] on the socket of another member of a group
    that [user] is in, or a notice of the server for [user] on the socket
    of [user]. *)
Definition proper (st : server) (user : string) (entry : sock * msg_data)
  : Prop :=
  let (s, m) := entry in
  (status m = "private" /\ sender m = user /\
   lookup st (receiver m) = Some s) \/
  (status m = "group" /\ sender m = user /\
   exists members other,
     get (groups st) (receiver m) = Some members /\
     In user members /\ In other members /\ other <> user /\
     lookup st other = Some s) \/
  (status m = "system" /\ sender m = "SERVER" /\ receiver m = user /\
   lookup st user = Some s).

(** Every entry of the registry is the open socket of a running worker
    with that name, and a socket has one worker. *)
Definition live_registry (w : world) : Prop :=
  wf (clients (srv w)) /\
  NoDup (map fst (threads w)) /\
  (forall s u, In (s, u) (threads w) -> is_closed (srv w) s = false) /\
  (forall u s, In (u, s) (clients (srv w)) ->
               thread_of (threads w) s = Some u).

(** From [st] to [st'] nothing changed in the registry or in the state of
    the sockets, and what was written in between satisfies [P]. *)
Definition wrote_only (P : sock * msg_data -> Prop) (st st' : server)
  : Prop :=
  clients st' = clients st /\ closed st' = closed st /\
  faulty st' = faulty st /\
  exists out, wire st' = wire st ++ out /\ Forall P out.

(** The line the client shows for a message built by [message_to_json]. *)
Definition shown (m : msg_data) : string :=
  if String.eqb (status m) "group" then
    "[GROUP: " ++ receiver m ++ " | FROM: " ++ sender m ++ "] " ++ text m
  else if String.eqb (status m) "private" then
    "[FROM: " ++ sender m ++ "] " ++ text m
  else "[" ++ sender m ++ "] " ++ text m.

(** A read at which [receive_messages] gives up: [recv] or [decode]
    raises, or the text is not empty and [json.loads] or the formatting
    of the line raises. *)
Definition unreadable (json_loads : string -> result json_value)
  (r : result string) : bool :=
  match r with
  | Exc _ => true
  | Val message =>
      negb (String.eqb message "") &&
      match and_then (json_loads message) display with
      | Exc _ => true
      | Val _ => false
      end
  end.

(** The text [message] is what the server sent for [m]. *)
Definition carries (json_loads : string -> result json_value)
  (message : string) (m : msg_data) : Prop :=
  String.eqb message "" = false /\
  json_loads message = Val (JObject (as_dict m)).

(** * The envelope as the specification words it *)




(** Every refused operation of one of the four kinds writes a notice. *)
Definition every_refusal_is_notified : Prop :=
  forall st sender d kind target body message,
    get d "status" = Some kind ->
    get d "receiver" = Some target ->
    get d "text" = Some body ->
    refusal st sender kind target = Some message ->
    wire (fst (process_message (JObject d) sender st)) <> wire st.

(** [json.loads] on a private message for [nobody] whose dict has no
    [sender] key. *)
Definition unsigned_loads (message : string) : result json_value :=
  Val (JObject [("status", "private"); ("receiver", "nobody");
                ("text", message)]).
(** * Facts about the dictionaries *)

Section DictFacts.

Context {V : Type}.
Implicit Types (d : dict V) (k : string) (v : V).

Lemma get_set_same d k v : get (set d k v) k = Some v.
Proof.
  induction d as [|[k' v'] d IH]; simpl.
  - now rewrite String.eqb_refl.
  - destruct (String.eqb k k') eqn:E; simpl; rewrite E; auto.
Qed.

Lemma get_set_other d k k' v :
  k <> k' -> get (set d k v) k' = get d k'.
Proof.
  intros Hne. induction d as [|[k0 v0] d IH]; simpl.
  - destruct (String.eqb k' k) eqn:E; auto.
    apply String.eqb_eq in E. congruence.
  - destruct (String.eqb k k0) eqn:E; simpl.
    + apply String.eqb_eq in E. subst k0.
      destruct (String.eqb k' k) eqn:E'; auto.
      apply String.eqb_eq in E'. congruence.
    + now rewrite IH.
Qed.

Lemma get_del_other d k k' :
  k <> k' -> get (del d k) k' = get d k'.
Proof.
  intros Hne. induction d as [|[k0 v0] d IH]; simpl; auto.
  destruct (String.eqb k k0) eqn:E; simpl.
  - apply String.eqb_eq in E. subst k0.
    destruct (String.eqb k' k) eqn:E'; auto.
    apply String.eqb_eq in E'. congruence.
  - now rewrite IH.
Qed.

Lemma get_none_keys d k : get d k = None <-> ~ In k (keys d).
Proof.
  induction d as [|[k0 v0] d IH]; simpl.
  - tauto.
  - destruct (String.eqb k k0) eqn:E.
    + apply String.eqb_eq in E. subst. split; [discriminate | tauto].
    + apply String.eqb_neq in E. rewrite IH. split.
      * intros H [H1 | H1]; [congruence | tauto].
      * tauto.
Qed.

Lemma get_some_in d k v : get d k = Some v -> In (k, v) d.
Proof.
  induction d as [|[k0 v0] d IH]; simpl; [discriminate|].
  destruct (String.eqb k k0) eqn:E.
  - apply String.eqb_eq in E. intros [= ->]. subst. now left.
  - intros H. right. auto.
Qed.

Lemma in_get_some d k v : wf d -> In (k, v) d -> get d k = Some v.
Proof.
  unfold wf. induction d as [|[k0 v0] d IH]; simpl; [tauto|].
  intros Hnd [H | H].
  - inversion H; subst. now rewrite String.eqb_refl.
  - inversion Hnd as [|? ? Hnot Hnd']; subst.
    destruct (String.eqb k k0) eqn:E; auto.
    apply String.eqb_eq in E. subst k0. exfalso. apply Hnot.
    change k with (fst (k, v)). now apply in_map.
Qed.

Lemma get_del_same d k : wf d -> get (del d k) k = None.
Proof.
  unfold wf. induction d as [|[k0 v0] d IH]; simpl; auto.
  intros Hnd. inversion Hnd as [|? ? Hnot Hnd']; subst.
  destruct (String.eqb k k0) eqn:E; simpl.
  - apply String.eqb_eq in E. subst k0. now apply get_none_keys.
  - rewrite E. auto.
Qed.

Lemma del_absent d k : get d k = None -> del d k = d.
Proof.
  induction d as [|[k0 v0] d IH]; simpl; auto.
  destruct (String.eqb k k0); [discriminate|].
  intros H. now rewrite IH.
Qed.

Lemma set_absent d k v : get d k = None -> set d k v = d ++ [(k, v)].
Proof.
  induction d as [|[k0 v0] d IH]; simpl; auto.
  destruct (String.eqb k k0); [discriminate|].
  intros H. now rewrite IH.
Qed.

Lemma del_set_absent d k v : get d k = None -> del (set d k v) k = d.
Proof.
  induction d as [|[k0 v0] d IH]; simpl.
  - now rewrite String.eqb_refl.
  - destruct (String.eqb k k0) eqn:E; [discriminate|].
    intros H. simpl. rewrite E. now rewrite IH.
Qed.

Lemma keys_set_present d k v :
  get d k <> None -> keys (set d k v) = keys d.
Proof.
  unfold keys. induction d as [|[k0 v0] d IH]; simpl; [congruence|].
  destruct (String.eqb k k0) eqn:E; simpl; auto.
  intros H. now rewrite IH.
Qed.

Lemma keys_del_incl d k x : In x (keys (del d k)) -> In x (keys d).
Proof.
  unfold keys. induction d as [|[k0 v0] d IH]; simpl; auto.
  destruct (String.eqb k k0); simpl; tauto.
Qed.

Lemma in_del_incl d k e : In e (del d k) -> In e d.
Proof.
  induction d as [|[k0 v0] d IH]; simpl; auto.
  destruct (String.eqb k k0); simpl; tauto.
Qed.

Lemma wf_del d k : wf d -> wf (del d k).
Proof.
  unfold wf, keys. induction d as [|[k0 v0] d IH]; simpl; auto.
  intros Hnd. inversion Hnd as [|? ? Hnot Hnd']; subst.
  destruct (String.eqb k k0); auto.
  simpl. constructor; auto.
  intros Hin. apply Hnot. now apply (keys_del_incl d k).
Qed.

Lemma wf_set d k v : wf d -> wf (set d k v).
Proof.
  intros Hwf. destruct (get d k) eqn:G.
  - unfold wf. rewrite keys_set_present; [assumption | congruence].
  - rewrite set_absent by assumption. unfold wf, keys.
    rewrite map_app. simpl.
    apply NoDup_app; [exact Hwf | repeat constructor; simpl; tauto |].
    intros x Hx [<- | []]. now apply get_none_keys in G.
Qed.

(** With unique keys, [del] removes the entry of [k] and nothing else. *)
Lemma in_del d k k' v :
  wf d -> (In (k', v) (del d k) <-> k' <> k /\ In (k', v) d).
Proof.
  intros Hwf. split.
  - intros Hin. split.
    + intros ->. apply in_get_some in Hin; [|now apply wf_del].
      rewrite get_del_same in Hin by assumption. discriminate.
    + now apply in_del_incl in Hin.
  - intros [Hne Hin]. apply get_some_in.
    rewrite get_del_other by congruence. now apply in_get_some.
Qed.


Lemma mem_false d k : mem d k = false <-> get d k = None.
Proof. unfold mem. destruct (get d k); split; congruence. Qed.

End DictFacts.

(** * Facts about writes and loops of writes *)

Lemma wrote_nil st : wrote [] st = st.
Proof. destruct st. unfold wrote, with_wire. simpl. now rewrite app_nil_r. Qed.

Lemma wrote_wrote a b st : wrote b (wrote a st) = wrote (a ++ b) st.
Proof. unfold wrote, with_wire. simpl. now rewrite app_assoc. Qed.

Lemma write_error_wrote out st s :
  write_error (wrote out st) s = write_error st s.
Proof. reflexivity. Qed.

Lemma writable_write_error st s :
  writable st s = true <-> write_error st s = None.
Proof.
  unfold writable, write_error.
  destruct (is_closed st s); simpl.
  - split; discriminate.
  - destruct (fault_of (faulty st) s); split; congruence.
Qed.

Lemma sendall_eq s m st :
  sendall s m st =
  match write_error st s with
  | Some e => (st, Exc e)
  | None => (wrote [(s, m)] st, Val tt)
  end.
Proof.
  unfold sendall, write_error.
  destruct (is_closed st s); [reflexivity|].
  now destruct (fault_of (faulty st) s).
Qed.

Lemma sendall_writable s m st :
  writable st s = true -> sendall s m st = (wrote [(s, m)] st, Val tt).
Proof.
  intros H. apply writable_write_error in H. now rewrite sendall_eq, H.
Qed.

Lemma served_wrote out st ss : served (wrote out st) ss = served st ss.
Proof.
  induction ss as [|s ss IH]; cbn [served]; [reflexivity|].
  rewrite IH. reflexivity.
Qed.

Lemma first_error_wrote out st ss :
  first_error (wrote out st) ss = first_error st ss.
Proof.
  induction ss as [|s ss IH]; cbn [first_error]; [reflexivity|].
  rewrite IH. reflexivity.
Qed.

Lemma group_targets_wrote out st sender members :
  group_targets (wrote out st) sender members =
  group_targets st sender members.
Proof. reflexivity. Qed.

(** A loop of writes reaches the sockets before the first failing one and
    raises what that one raises. *)
Lemma write_loop m ss : forall st,
  for_each ss (fun c => sendall c m) st =
  (wrote (to_each m (served st ss)) st, loop_result st ss).
Proof.
  unfold loop_result.
  induction ss as [|s ss IH]; intros st; simpl.
  - unfold ret. now rewrite wrote_nil.
  - unfold bind. rewrite sendall_eq.
    destruct (write_error st s) as [e|] eqn:E.
    + now rewrite wrote_nil.
    + rewrite IH, served_wrote, first_error_wrote, wrote_wrote. reflexivity.
Qed.

Lemma group_loop sender m members : forall st,
  for_each members (group_deliver sender m) st =
  for_each (group_targets st sender members) (fun c => sendall c m) st.
Proof.
  induction members as [|user members IH]; intros st; simpl; auto.
  unfold bind at 1. unfold group_deliver at 1.
  destruct (negb (String.eqb user sender)).
  - destruct (get (clients st) user) as [s|]; simpl.
    + unfold bind. rewrite sendall_eq.
      destruct (write_error st s); auto.
      rewrite IH. reflexivity.
    + apply IH.
  - simpl. apply IH.
Qed.

Lemma served_all st ss : all_writable st ss -> served st ss = ss.
Proof.
  induction 1 as [|s ss Hs _ IH]; simpl; auto.
  apply writable_write_error in Hs. now rewrite Hs, IH.
Qed.

Lemma first_error_all st ss : all_writable st ss -> first_error st ss = None.
Proof.
  induction 1 as [|s ss Hs _ IH]; simpl; auto.
  apply writable_write_error in Hs. now rewrite Hs.
Qed.

Lemma first_error_some st ss :
  ~ all_writable st ss -> exists e, first_error st ss = Some e.
Proof.
  induction ss as [|s ss IH]; simpl; intros H.
  - exfalso. apply H. constructor.
  - destruct (write_error st s) as [e|] eqn:E; [now exists e|].
    apply IH. intros Hall. apply H. constructor; auto.
    now apply writable_write_error.
Qed.

(** The sockets reached are an initial part of the list. *)
Lemma served_prefix st ss : exists rest, ss = served st ss ++ rest.
Proof.
  induction ss as [|s ss [rest IH]]; simpl.
  - now exists [].
  - destruct (write_error st s).
    + now exists (s :: ss).
    + exists rest. simpl. now rewrite <- IH.
Qed.

Lemma write_loop_all m ss st :
  all_writable st ss ->
  for_each ss (fun c => sendall c m) st = (wrote (to_each m ss) st, Val tt).
Proof.
  intros H. rewrite write_loop. unfold loop_result.
  now rewrite served_all, first_error_all.
Qed.

(** A notice for a registered user with a working socket is one write. *)
Lemma notice_delivered user message s st :
  lookup st user = Some s ->
  writable st s = true ->
  send_system_message user message st =
  (wrote [(s, notice user message)] st, Val tt).
Proof.
  unfold lookup, send_system_message. intros -> H.
  now apply sendall_writable.
Qed.

Lemma notice_dropped user message st :
  lookup st user = None ->
  send_system_message user message st = (st, Val tt).
Proof. unfold lookup, send_system_message. now intros ->. Qed.

Lemma in_group_targets st sender members s :
  In s (group_targets st sender members) <->
  exists user, In user members /\ user <> sender /\ lookup st user = Some s.
Proof.
  unfold group_targets, lookup. rewrite in_flat_map. split.
  - intros (user & Hin & Hs). exists user. split; auto.
    destruct (String.eqb user sender) eqn:E; simpl in Hs; [tauto|].
    apply String.eqb_neq in E. split; auto.
    destruct (get (clients st) user); simpl in Hs; [|tauto].
    destruct Hs as [-> | []]. reflexivity.
  - intros (user & Hin & Hne & Hs). exists user. split; auto.
    apply String.eqb_neq in Hne. rewrite Hne, Hs. simpl. now left.
Qed.

Lemma list_in_true x xs : list_in x xs = true <-> In x xs.
Proof.
  unfold list_in. rewrite existsb_exists. split.
  - intros (y & Hy & E). apply String.eqb_eq in E. now subst.
  - intros H. exists x. split; auto. apply String.eqb_refl.
Qed.

Lemma list_in_false x xs : list_in x xs = false <-> ~ In x xs.
Proof.
  rewrite <- list_in_true. destruct (list_in x xs); split; congruence.
Qed.

(** * Routing *)

Section Routing.

Variable st : server.
Variables sender target body : string.


Lemma private_not_found :
  lookup st target = None ->
  send_private_message sender target body st =
  send_system_message sender ("User " ++ target ++ " not found.") st.
Proof. unfold lookup, send_private_message. now intros ->. Qed.

Lemma group_accepted members :
  get (groups st) target = Some members ->
  list_in sender members = true ->
  send_group_message sender target body st =
  for_each (group_targets st sender members)
    (fun c => sendall c (message_to_json "group" sender target body)) st.
Proof.
  unfold send_group_message. intros -> ->. apply group_loop.
Qed.

Lemma group_refused :
  get (groups st) target = None \/
  (exists members, get (groups st) target = Some members /\
                   list_in sender members = false) ->
  send_group_message sender target body st =
  send_system_message sender (group_error target) st.
Proof.
  unfold send_group_message.
  intros [-> | (members & -> & ->)]; reflexivity.
Qed.

Lemma create_fresh :
  mem (groups st) target = false ->
  create_group sender target st =
  send_system_message sender
    ("Group " ++ target ++ " created successfully.")
    (with_groups (set (groups st) target [sender]) st).
Proof. unfold create_group. now intros ->. Qed.

Lemma create_taken :
  mem (groups st) target = true ->
  create_group sender target st =
  send_system_message sender ("Group " ++ target ++ " already exists.") st.
Proof. unfold create_group. now intros ->. Qed.

Lemma join_missing :
  get (groups st) target = None ->
  join_group sender target st =
  send_system_message sender ("Group " ++ target ++ " does not exist.") st.
Proof. unfold join_group. now intros ->. Qed.

Lemma join_member members :
  get (groups st) target = Some members ->
  list_in sender members = true ->
  join_group sender target st =
  send_system_message sender
    ("You are already in group " ++ target ++ ".") st.
Proof. unfold join_group. now intros -> ->. Qed.

Lemma join_new members :
  get (groups st) target = Some members ->
  list_in sender members = false ->
  join_group sender target st =
  send_system_message sender
    ("You have joined group " ++ target ++ ".")
    (with_groups (set (groups st) target (members ++ [sender])) st).
Proof. unfold join_group. now intros -> ->. Qed.

End Routing.

(** A notice changes nothing but what is written. *)
Lemma notice_keeps user message st :
  let st' := fst (send_system_message user message st) in
  clients st' = clients st /\ groups st' = groups st /\
  closed st' = closed st /\ faulty st' = faulty st.
Proof.
  unfold send_system_message.
  destruct (get (clients st) user) as [s|]; simpl; auto.
  rewrite sendall_eq. destruct (write_error st s); simpl; auto.
Qed.


(** * The session registry *)

Lemma lookup_register_same u s st : lookup (fst (register u s st)) u = Some s.
Proof. apply get_set_same. Qed.

Lemma lookup_register_other u u' s st :
  u <> u' -> lookup (fst (register u s st)) u' = lookup st u'.
Proof. intros H. unfold lookup. simpl. now apply get_set_other. Qed.


Lemma deregister_absent u st :
  lookup st u = None -> deregister u st = (st, Val tt).
Proof.
  unfold lookup, deregister. intros H.
  apply mem_false in H. now rewrite H.
Qed.

Lemma clients_deregister u st :
  clients (fst (deregister u st)) = del (clients st) u.
Proof.
  unfold deregister. destruct (mem (clients st) u) eqn:E; simpl; auto.
  apply mem_false in E. now rewrite del_absent.
Qed.

Lemma lookup_deregister_same u st :
  wf (clients st) -> lookup (fst (deregister u st)) u = None.
Proof.
  intros H. unfold lookup. rewrite clients_deregister.
  now apply get_del_same.
Qed.

Lemma lookup_deregister_other u u' st :
  u <> u' -> lookup (fst (deregister u st)) u' = lookup st u'.
Proof.
  intros H. unfold lookup. rewrite clients_deregister.
  now apply get_del_other.
Qed.

Lemma with_clients_same st : with_clients (clients st) st = st.
Proof. now destruct st. Qed.


Lemma wf_apply_op st op : wf (clients st) -> wf (clients (apply_op st op)).
Proof.
  intros H. destruct op as [i h | i]; simpl.
  - now apply wf_set.
  - rewrite clients_deregister. now apply wf_del.
Qed.

Lemma wf_apply_ops ops : forall st,
  wf (clients st) -> wf (clients (apply_ops st ops)).
Proof.
  unfold apply_ops.
  induction ops as [|op ops IH]; intros st H; simpl; auto.
  apply IH. now apply wf_apply_op.
Qed.

Lemma apply_ops_snoc st ops op :
  apply_ops st (ops ++ [op]) = apply_op (apply_ops st ops) op.
Proof. unfold apply_ops. now rewrite fold_left_app. Qed.

Lemma lookup_apply_other st op identity :
  ~ concerns identity op ->
  lookup (apply_op st op) identity = lookup st identity.
Proof.
  destruct op as [i h | i]; simpl; intros H.
  - now apply lookup_register_other.
  - now apply lookup_deregister_other.
Qed.

(** Where a list that ends in [op] can be cut around an element [x]. *)
Lemma cut_at_end {A} (before after ops : list A) (x op : A) :
  before ++ x :: after = ops ++ [op] ->
  (after = [] /\ before = ops /\ x = op) \/
  (exists after', after = after' ++ [op] /\ ops = before ++ x :: after').
Proof.
  destruct (exists_last (l := x :: after)) as (l' & y & E); [discriminate|].
  destruct after as [|a after].
  - intros H. left. apply app_inj_tail in H. tauto.
  - intros H. right.
    destruct (exists_last (l := a :: after)) as (l2 & z & E2);
      [discriminate|].
    rewrite E2 in H.
    change (before ++ x :: l2 ++ [z]) with (before ++ (x :: l2) ++ [z]) in H.
    rewrite app_assoc in H. apply app_inj_tail in H.
    destruct H as [H1 H2]. subst z. exists l2. split; auto.
Qed.

Lemma latest_register_skip ops op identity h :
  ~ concerns identity op ->
  (latest_register (ops ++ [op]) identity h <->
   latest_register ops identity h).
Proof.
  intros Hno. unfold latest_register. split.
  - intros (before & after & E & Hall).
    symmetry in E. apply cut_at_end in E.
    destruct E as [(_ & _ & E) | (after' & -> & ->)].
    + subst op. exfalso. apply Hno. reflexivity.
    + exists before, after'. split; auto.
      apply Forall_app in Hall. tauto.
  - intros (before & after & -> & Hall).
    exists before, (after ++ [op]). split.
    + now rewrite <- app_assoc.
    + apply Forall_app. split; auto.
Qed.

Lemma latest_register_last ops identity h h' :
  latest_register (ops ++ [Register identity h']) identity h <-> h = h'.
Proof.
  unfold latest_register. split.
  - intros (before & after & E & Hall).
    symmetry in E. apply cut_at_end in E.
    destruct E as [(_ & _ & E) | (after' & -> & _)].
    + now inversion E.
    + apply Forall_app in Hall. destruct Hall as [_ Hall].
      inversion Hall as [|? ? Hc _]. exfalso. apply Hc. reflexivity.
  - intros ->. exists ops, []. split; auto.
Qed.

Lemma latest_register_gone ops identity h :
  ~ latest_register (ops ++ [Deregister identity]) identity h.
Proof.
  intros (before & after & E & Hall).
  symmetry in E. apply cut_at_end in E.
  destruct E as [(_ & _ & E) | (after' & -> & _)].
  - discriminate.
  - apply Forall_app in Hall. destruct Hall as [_ Hall].
    inversion Hall as [|? ? Hc _]. apply Hc. reflexivity.
Qed.

Lemma concerns_dec identity op : {concerns identity op} + {~ concerns identity op}.
Proof. destruct op; simpl; apply string_dec. Qed.

Lemma lookup_latest ops : forall st identity h,
  wf (clients st) ->
  lookup st identity = None ->
  (lookup (apply_ops st ops) identity = Some h <->
   latest_register ops identity h).
Proof.
  induction ops as [|op ops IH] using rev_ind; intros st identity h Hwf Habs.
  - unfold apply_ops. simpl. rewrite Habs. split; [discriminate|].
    intros (before & after & E & _). now destruct before.
  - rewrite apply_ops_snoc.
    destruct (concerns_dec identity op) as [Hc | Hc].
    + destruct op as [i h' | i]; simpl in Hc; subst i.
      * cbn [apply_op]. rewrite lookup_register_same, latest_register_last.
        split; congruence.
      * cbn [apply_op].
        rewrite lookup_deregister_same by now apply wf_apply_ops.
        split; [discriminate|]. intros H.
        now apply latest_register_gone in H.
    + rewrite lookup_apply_other by assumption.
      rewrite latest_register_skip by assumption. now apply IH.
Qed.

(** * Properties of the registry and of routing *)

(** C3.  After any sequence of [register] and [deregister] operations,
    [lookup] of an identity gives the handle of the most recent [register]
    of it that no [deregister] of it follows, and nothing otherwise.
    A [register] of an identity that is present overwrites its entry in
    place: the identity keeps one entry, the prior handle's entry is gone,
    and no socket is closed.  A [deregister] of an absent identity changes
    nothing. *)
Theorem registry_last_write_wins
  (st0 : server) (ops : list registry_op) (identity : string) :
  wf (clients st0) ->
  lookup st0 identity = None ->
  let st := apply_ops st0 ops in
  (forall h, lookup st identity = Some h <-> latest_register ops identity h) /\
  (lookup st identity = None <-> forall h, ~ latest_register ops identity h) /\
  (forall new,
     let st' := apply_op st (Register identity new) in
     lookup st' identity = Some new /\
     closed st' = closed st /\
     forall old,
       lookup st identity = Some old ->
       keys (clients st') = keys (clients st) /\
       (old <> new -> ~ In (identity, old) (clients st'))) /\
  (lookup st identity = None -> apply_op st (Deregister identity) = st).
Proof.
  intros Hwf Habs st.
  assert (Hlatest : forall h, lookup st identity = Some h <->
                              latest_register ops identity h)
    by (intros h; now apply lookup_latest).
  assert (Hwf' : wf (clients st)) by now apply wf_apply_ops.
  repeat split.
  - apply Hlatest.
  - apply Hlatest.
  - intros Hnone h Hh. apply Hlatest in Hh. congruence.
  - intros Hno. destruct (lookup st identity) as [h|] eqn:E; auto.
    exfalso. apply (Hno h). now apply Hlatest.
  - apply lookup_register_same.
  - cbn [apply_op]. unfold register. simpl.
    apply keys_set_present. unfold lookup in H. congruence.
  - intros Hne Hin.
    apply in_get_some in Hin; [|now apply wf_apply_op].
    cbn [apply_op] in Hin. fold (lookup (fst (register identity new st)) identity) in Hin.
    rewrite lookup_register_same in Hin. congruence.
  - intros Hnone. cbn [apply_op]. now rewrite deregister_absent.
Qed.

Lemma registry_last_write_wins_witness :
  lookup (apply_ops (boot [])
            [Register "alice" 1; Register "alice" 2; Deregister "bob"])
    "alice" = Some 2.
Proof.
  apply (proj1 (registry_last_write_wins (boot [])
                  [Register "alice" 1; Register "alice" 2; Deregister "bob"]
                  "alice" (NoDup_nil _) eq_refl)).
  exists [Register "alice" 1], [Deregister "bob"]. split.
  - reflexivity.
  - repeat constructor. simpl. discriminate.
Defined.



(** C10.  A notice for a user who is not in the registry is dropped:
    nothing is written, nothing is raised, the state is the same.  So for
    a sender without an entry, no notice of any operation is delivered,
    and an operation that is refused leaves no trace at all. *)
Theorem notice_to_absent_user_is_dropped (st : server) (user : string) :
  lookup st user = None ->
  (forall message, send_system_message user message st = (st, Val tt)) /\
  (forall target body,
     lookup st target = None ->
     send_private_message user target body st = (st, Val tt)) /\
  (forall g body,
     get (groups st) g = None \/
     (exists members, get (groups st) g = Some members /\
                      list_in user members = false) ->
     send_group_message user g body st = (st, Val tt)) /\
  (forall g,
     mem (groups st) g = true -> create_group user g st = (st, Val tt)) /\
  (forall g,
     mem (groups st) g = false ->
     create_group user g st =
     (with_groups (set (groups st) g [user]) st, Val tt)) /\
  (forall g,
     get (groups st) g = None -> join_group user g st = (st, Val tt)) /\
  (forall g members,
     get (groups st) g = Some members ->
     list_in user members = true ->
     join_group user g st = (st, Val tt)) /\
  (forall g members,
     get (groups st) g = Some members ->
     list_in user members = false ->
     join_group user g st =
     (with_groups (set (groups st) g (members ++ [user])) st, Val tt)).
Proof.
  intros Habs.
  assert (Hdrop : forall message,
             send_system_message user message st = (st, Val tt))
    by (intros; now apply notice_dropped).
  repeat split.
  - exact Hdrop.
  - intros target body H. now rewrite private_not_found.
  - intros g body H. now rewrite group_refused.
  - intros g H. now rewrite create_taken.
  - intros g H. rewrite create_fresh by assumption. now apply notice_dropped.
  - intros g H. now rewrite join_missing.
  - intros g members H1 H2. now rewrite (join_member _ _ _ H1 H2).
  - intros g members H1 H2. rewrite (join_new _ _ _ H1 H2).
    now apply notice_dropped.
Qed.

Lemma notice_to_absent_user_is_dropped_witness :
  let st := {| clients := [("bob", 2)]; groups := [("proj", ["bob"])];
               wire := []; closed := []; faulty := [] |} in
  send_private_message "alice" "nobody" "hi" st = (st, Val tt).
Proof.
  intros st.
  apply (proj1 (proj2 (notice_to_absent_user_is_dropped st "alice" eq_refl))).
  reflexivity.
Defined.

(** A worker whose identity has no registry entry does occur: two
    connections give the same name, and the first one closes. *)
Lemma worker_without_registry_entry json_loads :
  let w := run json_loads {| srv := boot []; threads := [] |}
             [Accept 1 (Val "alice"); Accept 2 (Val "alice");
              Recv 1 (Val "")] in
  thread_of (threads w) 2 = Some "alice" /\ lookup (srv w) "alice" = None.
Proof. split; reflexivity. Qed.



(** * How the group directory evolves *)

Lemma keeps_ret {A} (a : A) : keeps_groups (ret a).
Proof. now intros st. Qed.

Lemma keeps_raise {A} e : keeps_groups (@raise A e).
Proof. now intros st. Qed.

Lemma keeps_bind {A B} (m : M A) (k : A -> M B) :
  keeps_groups m -> (forall a, keeps_groups (k a)) -> keeps_groups (bind m k).
Proof.
  intros Hm Hk st. unfold bind. specialize (Hm st).
  destruct (m st) as [st1 [a|e]]; simpl in *.
  - now rewrite Hk.
  - assumption.
Qed.

Lemma keeps_for_each {A} (body : A -> M unit) xs :
  (forall x, keeps_groups (body x)) -> keeps_groups (for_each xs body).
Proof.
  intros Hb. induction xs as [|x xs IH]; simpl.
  - apply keeps_ret.
  - apply keeps_bind; auto.
Qed.

Lemma keeps_sendall s m : keeps_groups (sendall s m).
Proof.
  intros st. rewrite sendall_eq. now destruct (write_error st s).
Qed.

Lemma keeps_notice user message :
  keeps_groups (send_system_message user message).
Proof. intros st. apply notice_keeps. Qed.

Lemma keeps_broadcast message : keeps_groups (broadcast_system_message message).
Proof.
  intros st. unfold broadcast_system_message.
  apply keeps_for_each. intros x. apply keeps_sendall.
Qed.

Lemma keeps_private sender target body :
  keeps_groups (send_private_message sender target body).
Proof.
  intros st. unfold send_private_message.
  destruct (get (clients st) target).
  - apply keeps_sendall.
  - apply keeps_notice.
Qed.

Lemma keeps_group_deliver sender m user :
  keeps_groups (group_deliver sender m user).
Proof.
  intros st. unfold group_deliver.
  destruct (negb (String.eqb user sender)); auto.
  destruct (get (clients st) user); auto. apply keeps_sendall.
Qed.

Lemma keeps_group_message sender target body :
  keeps_groups (send_group_message sender target body).
Proof.
  intros st. unfold send_group_message.
  destruct (get (groups st) target) as [members|].
  - destruct (list_in sender members).
    + apply keeps_for_each. intros x. apply keeps_group_deliver.
    + apply keeps_notice.
  - apply keeps_notice.
Qed.

Lemma keeps_register u s : keeps_groups (register u s).
Proof. now intros st. Qed.

Lemma keeps_deregister u : keeps_groups (deregister u).
Proof. intros st. unfold deregister. now destruct (mem (clients st) u). Qed.

Lemma keeps_close s : keeps_groups (close s).
Proof. now intros st. Qed.

Lemma keeps_cleanup s u : keeps_groups (cleanup s u).
Proof.
  unfold cleanup. apply keeps_bind; [apply keeps_deregister|]. intros _.
  apply keeps_bind; [apply keeps_close|]. intros _. apply keeps_broadcast.
Qed.

Lemma keeps_subscript data key : keeps_groups (subscript data key).
Proof.
  unfold subscript. destruct data as [d|]; [|apply keeps_raise].
  destruct (get d key); [apply keeps_ret | apply keeps_raise].
Qed.

(** The groups after [create_group] and [join_group]. *)
Lemma groups_create sender g st :
  groups (fst (create_group sender g st)) =
  if mem (groups st) g then groups st else set (groups st) g [sender].
Proof.
  unfold create_group. destruct (mem (groups st) g); simpl.
  - apply keeps_notice.
  - now rewrite keeps_notice.
Qed.

Lemma groups_join sender g st :
  groups (fst (join_group sender g st)) =
  match get (groups st) g with
  | Some members =>
      if list_in sender members then groups st
      else set (groups st) g (members ++ [sender])
  | None => groups st
  end.
Proof.
  unfold join_group. destruct (get (groups st) g) as [members|].
  - destruct (list_in sender members); simpl; now rewrite keeps_notice.
  - apply keeps_notice.
Qed.

(** What [process_message] does, by the kind of the envelope. *)
Lemma process_envelope d sender kind target body st :
  get d "status" = Some kind ->
  get d "receiver" = Some target ->
  get d "text" = Some body ->
  process_message (JObject d) sender st =
  if String.eqb kind "private" then send_private_message sender target body st
  else if String.eqb kind "group" then send_group_message sender target body st
  else if String.eqb kind "create" then create_group sender target st
  else if String.eqb kind "join" then join_group sender target st
  else (st, Val tt).
Proof.
  intros H1 H2 H3. unfold process_message, bind, subscript.
  rewrite H1. unfold ret at 1. rewrite H2. unfold ret at 1.
  rewrite H3. unfold ret at 1.
  destruct (String.eqb kind "private"); auto.
  destruct (String.eqb kind "group"); auto.
  destruct (String.eqb kind "create"); auto.
  destruct (String.eqb kind "join"); auto.
Qed.

(** A message that lacks a key, or is no dict, raises before anything is
    done. *)
Lemma process_undecodable data sender st :
  match data with
  | JOther => True
  | JObject d =>
      has_key d "status" && has_key d "receiver" && has_key d "text" = false
  end ->
  exists e, process_message data sender st = (st, Exc e).
Proof.
  destruct data as [d|]; intros H.
  - unfold has_key, mem in H. unfold process_message, bind, subscript.
    destruct (get d "status"); [|now exists KeyError].
    unfold ret at 1.
    destruct (get d "receiver"); [|now exists KeyError].
    unfold ret at 1.
    destruct (get d "text"); [discriminate|now exists KeyError].
  - now exists TypeError.
Qed.

Section Preserved.

(** A relation between the state before and after that is transitive
    and holds whenever [groups] is the same. *)
Variable R : server -> server -> Prop.
Hypothesis R_trans : forall a b c, R a b -> R b c -> R a c.
Hypothesis R_groups : forall st st', groups st' = groups st -> R st st'.

(** The envelopes under which it holds for [create] and [join]. *)
Variable allowed : string -> string -> Prop.
Hypothesis R_create : forall sender g st,
  allowed "create" g -> R st (fst (create_group sender g st)).
Hypothesis R_join : forall sender g st,
  allowed "join" g -> R st (fst (join_group sender g st)).

Abbreviation respects := (respects R).

Lemma respects_keeps {A} (m : M A) : keeps_groups m -> respects m.
Proof. intros H st. apply R_groups, H. Qed.

Lemma respects_bind {A B} (m : M A) (k : A -> M B) :
  respects m -> (forall a, respects (k a)) -> respects (bind m k).
Proof.
  intros Hm Hk st. unfold bind. specialize (Hm st).
  destruct (m st) as [st1 [a|e]]; simpl in *; auto.
  eapply R_trans; [exact Hm | apply Hk].
Qed.

Abbreviation data_allowed := (data_allowed allowed).

Lemma respects_process data sender :
  data_allowed data -> respects (process_message data sender).
Proof.
  intros Hok st. destruct data as [d|].
  - destruct (get d "status") as [kind|] eqn:E1;
    [destruct (get d "receiver") as [target|] eqn:E2;
     [destruct (get d "text") as [body|] eqn:E3|]|].
    + rewrite (@process_envelope d sender kind target body st E1 E2 E3).
      specialize (Hok kind target E1 E2).
      destruct (String.eqb kind "private") eqn:K1;
        [apply R_groups, keeps_private|].
      destruct (String.eqb kind "group") eqn:K2;
        [apply R_groups, keeps_group_message|].
      destruct (String.eqb kind "create") eqn:K3.
      { apply String.eqb_eq in K3. subst kind. now apply R_create. }
      destruct (String.eqb kind "join") eqn:K4.
      { apply String.eqb_eq in K4. subst kind. now apply R_join. }
      now apply R_groups.
    + destruct (process_undecodable (JObject d) sender st) as [e ->].
      * unfold has_key, mem. rewrite E3. now rewrite andb_false_r.
      * now apply R_groups.
    + destruct (process_undecodable (JObject d) sender st) as [e ->].
      * unfold has_key, mem. rewrite E2. now rewrite andb_false_r.
      * now apply R_groups.
    + destruct (process_undecodable (JObject d) sender st) as [e ->].
      * unfold has_key, mem. now rewrite E1.
      * now apply R_groups.
  - now apply R_groups.
Qed.

Variable json_loads : string -> result json_value.

Abbreviation read_allowed := (read_allowed allowed json_loads).

Lemma respects_serve username reads :
  Forall read_allowed reads -> respects (serve json_loads username reads).
Proof.
  induction 1 as [|r reads Hr _ IH]; simpl.
  - now apply respects_keeps, keeps_ret.
  - destruct r as [message|e]; [|now apply respects_keeps, keeps_raise].
    destruct (String.eqb message ""); [now apply respects_keeps, keeps_ret|].
    intros st. unfold bind at 1. unfold loads.
    simpl in Hr. destruct (json_loads message) as [data|e].
    + apply respects_bind; [now apply respects_process | intros _; exact IH].
    + now apply R_groups.
Qed.

Lemma respects_session s username reads st :
  Forall read_allowed reads ->
  R st (fst (session json_loads s username reads st)).
Proof.
  intros H. unfold session.
  pose proof (respects_serve username H st) as H1.
  destruct (serve json_loads username reads st) as [st1 [[|]|e]];
    simpl in H1; auto;
    pose proof (R_groups _ _ (keeps_cleanup s username st1)) as H2;
    destruct (cleanup s username st1) as [st2 [u|e']]; simpl in *;
    eapply R_trans; eauto.
Qed.

Abbreviation event_allowed := (event_allowed allowed json_loads).

Lemma respects_step w ev :
  event_allowed ev -> R (srv w) (srv (step json_loads w ev)).
Proof.
  destruct ev as [s hello | s r | s e]; simpl; intros Hev.
  - destruct (fresh w s); [|now apply R_groups].
    destruct hello; now apply R_groups.
  - destruct (thread_of (threads w) s) as [username|];
      [|now apply R_groups].
    assert (Hs : R (srv w) (fst (session json_loads s username [r] (srv w))))
      by (apply respects_session; now repeat constructor).
    destruct (session json_loads s username [r] (srv w)) as [st' [| |e]];
      exact Hs.
  - now apply R_groups.
Qed.

Lemma respects_run evs : forall w,
  Forall event_allowed evs -> R (srv w) (srv (run json_loads w evs)).
Proof.
  unfold run.
  induction evs as [|ev evs IH]; intros w Hall; simpl.
  - now apply R_groups.
  - inversion Hall; subst.
    apply R_trans with (srv (step json_loads w ev));
      [apply respects_step | apply IH]; assumption.
Qed.

End Preserved.

(** * The group directory: invariant, creation and joining *)

Lemma groups_grow_refl st st' : groups st' = groups st -> groups_grow st st'.
Proof.
  intros E g members H. exists []. now rewrite E, app_nil_r.
Qed.

Lemma directory_step_same st st' :
  groups st' = groups st -> directory_step st st'.
Proof.
  intros E. split.
  - unfold groups_inv. now rewrite E.
  - now apply groups_grow_refl.
Qed.

Lemma directory_step_trans a b c :
  directory_step a b -> directory_step b c -> directory_step a c.
Proof.
  intros [Hi1 Hg1] [Hi2 Hg2]. split; auto.
  intros g members H.
  destruct (Hg1 g members H) as [j1 H1].
  destruct (Hg2 g _ H1) as [j2 H2].
  exists (j1 ++ j2). now rewrite app_assoc.
Qed.

Lemma directory_step_create sender g st :
  directory_step st (fst (create_group sender g st)).
Proof.
  unfold directory_step, groups_inv, groups_grow. rewrite groups_create.
  destruct (mem (groups st) g) eqn:E.
  - split; auto. intros g' members H. exists []. now rewrite app_nil_r.
  - apply mem_false in E. split.
    + intros Hinv g' members.
      destruct (string_dec g g') as [<- | Hne].
      * rewrite get_set_same. intros [= <-]. split; [discriminate|].
        repeat constructor. simpl. tauto.
      * rewrite get_set_other by assumption. apply Hinv.
    + intros g' members H. exists []. rewrite app_nil_r.
      rewrite get_set_other; auto. congruence.
Qed.

Lemma directory_step_join sender g st :
  directory_step st (fst (join_group sender g st)).
Proof.
  unfold directory_step, groups_inv, groups_grow. rewrite groups_join.
  destruct (get (groups st) g) as [ms|] eqn:E.
  - destruct (list_in sender ms) eqn:L.
    + split; auto. intros g' members H. exists []. now rewrite app_nil_r.
    + apply list_in_false in L. split.
      * intros Hinv g' members.
        destruct (string_dec g g') as [<- | Hne].
        -- rewrite get_set_same. intros [= <-]. split.
           ++ now destruct ms.
           ++ apply NoDup_app.
              ** now apply (Hinv g).
              ** repeat constructor. simpl. tauto.
              ** intros x Hx [<- | []]. contradiction.
        -- rewrite get_set_other by assumption. apply Hinv.
      * intros g' members H.
        destruct (string_dec g g') as [<- | Hne].
        -- rewrite get_set_same. exists [sender]. congruence.
        -- exists []. rewrite app_nil_r. now rewrite get_set_other.
  - split; auto. intros g' members H. exists []. now rewrite app_nil_r.
Qed.



Lemma directory_step_run json_loads w evs :
  directory_step (srv w) (srv (run json_loads w evs)).
Proof.
  apply respects_run with (allowed := fun _ _ => True).
  - exact directory_step_trans.
  - exact directory_step_same.
  - intros. apply directory_step_create.
  - intros. apply directory_step_join.
  - apply Forall_forall. intros [s h | s [m|e] | s e] _; simpl; auto.
    destruct (json_loads m) as [[d|]|]; simpl; auto.
Qed.

Lemma directory_step_session json_loads s username reads st :
  directory_step st (fst (session json_loads s username reads st)).
Proof.
  apply respects_session with (allowed := fun _ _ => True).
  - exact directory_step_trans.
  - exact directory_step_same.
  - intros. apply directory_step_create.
  - intros. apply directory_step_join.
  - apply Forall_forall. intros [m|e] _; simpl; auto.
    destruct (json_loads m) as [[d|]|]; simpl; auto.
Qed.

Lemma directory_step_process data sender st :
  directory_step st (fst (process_message data sender st)).
Proof.
  apply respects_process with (allowed := fun _ _ => True).
  - exact directory_step_same.
  - intros. apply directory_step_create.
  - intros. apply directory_step_join.
  - destruct data; simpl; auto.
Qed.


(** C5.  Every operation keeps the directory such that each group has at
    least one member and no member twice: [create], [join], the dispatch
    of any message, the handling of a disconnect, a whole session of a
    worker, and any run of the server.  Members are never removed, and a
    group starts with its creator, who therefore stays its first member. *)
Theorem group_directory_invariant
  (json_loads : string -> result json_value) (st : server) :
  groups_inv st ->
  (forall a g,
     let st' := fst (create_group a g st) in
     groups_inv st' /\ groups_grow st st' /\
     (mem (groups st) g = false -> get (groups st') g = Some [a])) /\
  (forall a g,
     let st' := fst (join_group a g st) in
     groups_inv st' /\ groups_grow st st') /\
  (forall data a,
     let st' := fst (process_message data a st) in
     groups_inv st' /\ groups_grow st st') /\
  (forall s a,
     let st' := fst (cleanup s a st) in
     groups_inv st' /\ groups_grow st st') /\
  (forall s a reads,
     let st' := fst (session json_loads s a reads st) in
     groups_inv st' /\ groups_grow st st') /\
  (forall ts evs,
     let st' := srv (run json_loads {| srv := st; threads := ts |} evs) in
     groups_inv st' /\ groups_grow st st').
Proof.
  intros Hinv.
  assert (Huse : forall st', directory_step st st' ->
                             groups_inv st' /\ groups_grow st st')
    by (intros st' [H1 H2]; auto).
  split; [|split; [|split; [|split; [|split]]]].
  - intros a g st'.
    destruct (Huse st' (directory_step_create a g st)) as [H1 H2].
    split; [exact H1 | split; [exact H2|]].
    intros Habs. unfold st'. rewrite groups_create, Habs. apply get_set_same.
  - intros a g. apply Huse, directory_step_join.
  - intros data a. apply Huse, directory_step_process.
  - intros s a. apply Huse, directory_step_same, keeps_cleanup.
  - intros s a reads. apply Huse, directory_step_session.
  - intros ts evs. apply Huse.
    apply (directory_step_run json_loads {| srv := st; threads := ts |}).
Qed.

Lemma groups_inv_boot down : groups_inv (boot down).
Proof. intros g members. discriminate. Qed.

Lemma group_directory_invariant_witness :
  let st := {| clients := [("alice", 1); ("bob", 2); ("carol", 3)];
               groups := [("proj", ["alice"])];
               wire := []; closed := []; faulty := [] |} in
  let st' := srv (run sample_loads
                    {| srv := st;
                       threads := [(1, "alice"); (2, "bob"); (3, "carol")] |}
                    [Recv 2 (Val "/join proj"); Recv 1 (Val "/create proj");
                     Recv 3 (Val "/join proj"); Recv 2 (Val "/join proj");
                     Recv 3 (Val "")]) in
  (groups_inv st' /\ groups_grow st st') /\
  get (groups st') "proj" = Some ["alice"; "bob"; "carol"].
Proof.
  intros st.
  assert (Hinv : groups_inv st).
  { intros g members. simpl.
    destruct (String.eqb g "proj"); [|discriminate].
    intros [= <-]. split; [discriminate|].
    repeat constructor. simpl. tauto. }
  pose proof (group_directory_invariant sample_loads Hinv)
    as (_ & _ & _ & _ & _ & H).
  split; [|reflexivity].
  apply (H [(1, "alice"); (2, "bob"); (3, "carol")]
           [Recv 2 (Val "/join proj"); Recv 1 (Val "/create proj");
            Recv 3 (Val "/join proj"); Recv 2 (Val "/join proj");
            Recv 3 (Val "")]).
Defined.



(** * The worker: closing, undecodable input, unknown kinds *)

Lemma cleanup_eq s username st :
  cleanup s username st =
  broadcast_system_message (username ++ " has left the chat.")
    (departed s username st).
Proof.
  unfold cleanup, bind, departed, deregister, close.
  destruct (mem (clients st) username) eqn:E; [reflexivity|].
  apply mem_false in E. rewrite del_absent by exact E.
  now rewrite with_clients_same.
Qed.

Lemma lookup_departed s username st :
  wf (clients st) -> lookup (departed s username st) username = None.
Proof. intros H. unfold lookup, departed. simpl. now apply get_del_same. Qed.

Lemma cleanup_state s username st :
  let st' := fst (cleanup s username st) in
  clients st' = del (clients st) username /\
  groups st' = groups st /\
  closed st' = s :: closed st /\
  wire st' =
  wire st ++ to_each (farewell username)
               (served (departed s username st)
                  (values (del (clients st) username))).
Proof.
  rewrite cleanup_eq. unfold broadcast_system_message.
  rewrite write_loop. simpl. auto.
Qed.

(** A read that does not decode raises inside the loop and changes
    nothing. *)
Lemma serve_malformed json_loads username r rest st :
  malformed json_loads r = true ->
  exists e, serve json_loads username (r :: rest) st = (st, Exc e).
Proof.
  destruct r as [message|e]; simpl.
  - destruct (String.eqb message "") eqn:E; simpl; [discriminate|].
    intros H. unfold bind at 1. unfold loads.
    destruct (json_loads message) as [data|e]; [|now exists e].
    destruct (process_undecodable data username st) as [e He].
    + destruct data as [d|]; auto.
      now apply negb_true_iff in H.
    + exists e. unfold bind. now rewrite He.
  - intros H. now exists e.
Qed.

Lemma serve_eof json_loads username rest st :
  serve json_loads username (Val "" :: rest) st = (st, Val Break).
Proof. reflexivity. Qed.

Lemma session_closing json_loads s username reads st st1 r :
  serve json_loads username reads st = (st1, r) ->
  r <> Val Blocked ->
  let after := session json_loads s username reads st in
  fst after = fst (cleanup s username st1) /\ snd after <> Waiting.
Proof.
  intros Hs Hr. unfold session. rewrite Hs.
  destruct r as [[|]|e]; [|congruence|];
    destruct (cleanup s username st1) as [st2 [u|e']]; simpl; split; auto;
    try discriminate.
  destruct (caught e); discriminate.
Qed.

Lemma thread_of_drop ts s : thread_of (drop_thread ts s) s = None.
Proof.
  unfold drop_thread. induction ts as [|[s' u] ts IH]; simpl; auto.
  destruct (Nat.eqb s' s) eqn:E; simpl; auto.
  rewrite Nat.eqb_sym, E. exact IH.
Qed.

Lemma step_closing json_loads w s username r st1 res :
  thread_of (threads w) s = Some username ->
  serve json_loads username [r] (srv w) = (st1, res) ->
  res <> Val Blocked ->
  let w' := step json_loads w (Recv s r) in
  srv w' = fst (cleanup s username st1) /\ thread_of (threads w') s = None.
Proof.
  intros Ht Hs Hr. simpl. rewrite Ht.
  destruct (session_closing json_loads s username [r] (srv w) Hs Hr)
    as [H1 H2].
  destruct (session json_loads s username [r] (srv w)) as [st' [| |e]];
    simpl in *; try congruence; split; auto using thread_of_drop.
Qed.

(** C8.  The [finally] block first takes the identity out of the registry
    and closes the socket, and then broadcasts
    [{system, SERVER, ALL, "<identity> has left the chat."}] over the
    registry as it then is, excluding nobody: one write for each entry
    that is still there, none for the departing identity.  The zero-length
    read of a worker leads to exactly this. *)
Theorem departure_is_announced_after_deregistering
  (s : sock) (username : string) (st : server) :
  wf (clients st) ->
  all_writable (departed s username st)
    (values (clients (departed s username st))) ->
  let gone := departed s username st in
  cleanup s username st =
  broadcast_system_message (username ++ " has left the chat.") gone /\
  cleanup s username st =
  (wrote (map (fun entry => (snd entry, farewell username)) (clients gone))
     gone, Val tt) /\
  lookup gone username = None /\
  (forall user c,
     In (user, c) (clients gone) <->
     user <> username /\ lookup st user = Some c) /\
  (forall json_loads rest,
     session json_loads s username (Val "" :: rest) st =
     (fst (cleanup s username st), Returned)).
Proof.
  intros Hwf Hall gone.
  assert (Hc : cleanup s username st =
               (wrote (map (fun entry => (snd entry, farewell username))
                         (clients gone)) gone, Val tt)).
  { rewrite cleanup_eq. unfold broadcast_system_message.
    rewrite write_loop_all by exact Hall.
    unfold to_each, values. now rewrite map_map. }
  split; [apply cleanup_eq|]. split; [exact Hc|].
  split; [now apply lookup_departed|]. split.
  - intros user c. unfold gone, departed. simpl.
    rewrite in_del by exact Hwf. unfold lookup. split.
    + intros [H1 H2]. split; auto. now apply in_get_some.
    + intros [H1 H2]. split; auto. now apply get_some_in.
  - intros json_loads rest. unfold session. rewrite serve_eof.
    now rewrite Hc.
Qed.

Lemma departure_is_announced_after_deregistering_witness :
  let st := {| clients := [("alice", 1); ("bob", 2); ("carol", 3)];
               groups := []; wire := []; closed := []; faulty := [] |} in
  cleanup 1 "alice" st =
  (wrote [(2, farewell "alice"); (3, farewell "alice")]
     (departed 1 "alice" st), Val tt).
Proof.
  intros st.
  refine (proj1 (proj2
    (@departure_is_announced_after_deregistering 1 "alice" st _ _))).
  - unfold wf. simpl. repeat constructor; simpl; intuition discriminate.
  - repeat constructor.
Defined.

(** A read on which decoding raises leaves the loop through the [finally]
    block: the state after it is the state after a zero-length read, with
    the identity deregistered, the socket closed and the departure
    broadcast, and the worker no longer reads. *)
Theorem undecodable_input_closes_the_session
  (json_loads : string -> result json_value)
  (s : sock) (username : string) (r : result string)
  (rest : list (result string)) (st : server) :
  malformed json_loads r = true ->
  let after := session json_loads s username (r :: rest) st in
  fst after = fst (session json_loads s username [Val ""] st) /\
  fst after = fst (cleanup s username st) /\
  snd after <> Waiting /\
  (wf (clients st) -> lookup (fst after) username = None) /\
  is_closed (fst after) s = true /\
  wire (fst after) =
  wire st ++ to_each (farewell username)
               (served (departed s username st)
                  (values (del (clients st) username))) /\
  (forall w,
     srv w = st ->
     thread_of (threads w) s = Some username ->
     let w' := step json_loads w (Recv s r) in
     srv w' = fst (cleanup s username st) /\
     thread_of (threads w') s = None).
Proof.
  intros Hbad after.
  destruct (serve_malformed json_loads username r rest st Hbad) as [e He].
  assert (Hne : @Exc loop_exit e <> Val Blocked) by discriminate.
  destruct (session_closing json_loads s username (r :: rest) st He Hne)
    as [H1 H2].
  fold after in H1, H2.
  destruct (cleanup_state s username st) as (Hc & _ & Hcl & Hw).
  split; [|split; [exact H1|split; [exact H2|split; [|split; [|split]]]]].
  - rewrite H1. unfold session. rewrite serve_eof.
    now destruct (cleanup s username st) as [st2 [u|e']].
  - intros Hwf. rewrite H1. unfold lookup. rewrite Hc.
    now apply get_del_same.
  - rewrite H1. unfold is_closed. rewrite Hcl. simpl.
    now rewrite Nat.eqb_refl.
  - rewrite H1. exact Hw.
  - intros w <- Ht.
    destruct (serve_malformed json_loads username r [] (srv w) Hbad)
      as [e1 He1].
    apply (step_closing json_loads w s r Ht He1). discriminate.
Qed.

Lemma undecodable_input_closes_the_session_witness :
  let st := {| clients := [("alice", 1); ("bob", 2)]; groups := [];
               wire := []; closed := []; faulty := [] |} in
  fst (session sample_loads 1 "alice" [Val "{"] st) =
  fst (session sample_loads 1 "alice" [Val ""] st).
Proof.
  intros st.
  exact (proj1 (@undecodable_input_closes_the_session
                  sample_loads 1 "alice" (Val "{") [] st eq_refl)).
Defined.

(** After the [finally] block the exception of the undecodable read is
    raised again: it is none of the two that [handle_client] catches. *)
Lemma undecodable_read_raises_after_cleanup json_loads s username message st :
  String.eqb message "" = false ->
  json_loads message = Exc JSONDecodeError ->
  all_writable (departed s username st)
    (values (clients (departed s username st))) ->
  snd (session json_loads s username [Val message] st) = Died JSONDecodeError.
Proof.
  intros Hne Hj Hall. unfold session. simpl. rewrite Hne.
  unfold bind at 1. unfold loads. rewrite Hj.
  rewrite cleanup_eq. unfold broadcast_system_message.
  now rewrite write_loop_all.
Qed.

(** * The registry along a run

    Only [register] and [deregister] touch [clients]; its keys stay
    unique. *)

Lemma clients_sendall s m st : clients (fst (sendall s m st)) = clients st.
Proof. rewrite sendall_eq. now destruct (write_error st s). Qed.

Lemma clients_notice user message st :
  clients (fst (send_system_message user message st)) = clients st.
Proof. apply notice_keeps. Qed.

Lemma clients_write_loop m ss st :
  clients (fst (for_each ss (fun c => sendall c m) st)) = clients st.
Proof. now rewrite write_loop. Qed.

Lemma clients_process data sender st :
  clients (fst (process_message data sender st)) = clients st.
Proof.
  destruct data as [d|]; [|reflexivity].
  destruct (get d "status") as [kind|] eqn:E1;
    [destruct (get d "receiver") as [target|] eqn:E2;
     [destruct (get d "text") as [body|] eqn:E3|]|].
  - rewrite (@process_envelope d sender kind target body st E1 E2 E3).
    destruct (String.eqb kind "private").
    { unfold send_private_message.
      destruct (get (clients st) target);
        [apply clients_sendall | apply clients_notice]. }
    destruct (String.eqb kind "group").
    { unfold send_group_message.
      destruct (get (groups st) target) as [members|];
        [|apply clients_notice].
      destruct (list_in sender members); [|apply clients_notice].
      rewrite group_loop. apply clients_write_loop. }
    destruct (String.eqb kind "create").
    { unfold create_group. destruct (negb (mem (groups st) target));
        now rewrite clients_notice. }
    destruct (String.eqb kind "join"); [|reflexivity].
    unfold join_group. destruct (get (groups st) target) as [members|];
      [|apply clients_notice].
    destruct (negb (list_in sender members)); now rewrite clients_notice.
  - destruct (process_undecodable (JObject d) sender st) as [e ->]; auto.
    unfold has_key, mem. rewrite E3. now rewrite andb_false_r.
  - destruct (process_undecodable (JObject d) sender st) as [e ->]; auto.
    unfold has_key, mem. rewrite E2. now rewrite andb_false_r.
  - destruct (process_undecodable (JObject d) sender st) as [e ->]; auto.
    unfold has_key, mem. now rewrite E1.
Qed.

Lemma clients_serve json_loads username reads : forall st,
  clients (fst (serve json_loads username reads st)) = clients st.
Proof.
  induction reads as [|[message|e] reads IH]; intros st; simpl; auto.
  destruct (String.eqb message ""); auto.
  unfold bind at 1. unfold loads.
  destruct (json_loads message) as [data|e]; auto.
  unfold bind. pose proof (clients_process data username st) as Hp.
  destruct (process_message data username st) as [st1 [u|e]]; simpl in *.
  - now rewrite IH.
  - exact Hp.
Qed.

Lemma clients_cleanup s username st :
  clients (fst (cleanup s username st)) = del (clients st) username.
Proof.
  rewrite cleanup_eq. unfold broadcast_system_message.
  now rewrite clients_write_loop.
Qed.

Lemma wf_session json_loads s username reads st :
  wf (clients st) ->
  wf (clients (fst (session json_loads s username reads st))).
Proof.
  intros Hwf. unfold session.
  pose proof (clients_serve json_loads username reads st) as Hs.
  destruct (serve json_loads username reads st) as [st1 [[|]|e]];
    simpl in Hs;
    try (pose proof (clients_cleanup s username st1) as Hc;
         destruct (cleanup s username st1) as [st2 [u|e']]; simpl in *;
         rewrite Hc, Hs; now apply wf_del).
  simpl. now rewrite Hs.
Qed.

Lemma wf_step json_loads w ev :
  wf (clients (srv w)) -> wf (clients (srv (step json_loads w ev))).
Proof.
  intros Hwf. destruct ev as [s hello | s r | s e]; simpl.
  - destruct (fresh w s); auto. destruct hello; auto.
    simpl. now apply wf_set.
  - destruct (thread_of (threads w) s) as [username|]; auto.
    pose proof (@wf_session json_loads s username [r] (srv w) Hwf) as H.
    now destruct (session json_loads s username [r] (srv w))
      as [st' [| |e]].
  - exact Hwf.
Qed.

(** In every state that a run reaches from the start of the server, an
    identity has at most one entry. *)
Lemma wf_run json_loads evs : forall w,
  wf (clients (srv w)) -> wf (clients (srv (run json_loads w evs))).
Proof.
  unfold run. induction evs as [|ev evs IH]; intros w Hwf; simpl; auto.
  apply IH. now apply wf_step.
Qed.




Lemma known_kind_false kind :
  known_kind kind = false ->
  String.eqb kind "private" = false /\ String.eqb kind "group" = false /\
  String.eqb kind "create" = false /\ String.eqb kind "join" = false.
Proof.
  unfold known_kind. intros H.
  repeat (apply orb_false_iff in H; destruct H as [H ?]). auto.
Qed.

(** A refused operation of one of the four kinds is answered by one call
    of [send_system_message] for the sender. *)
Lemma refused_is_notified d sender kind target body message st :
  get d "status" = Some kind ->
  get d "receiver" = Some target ->
  get d "text" = Some body ->
  refusal st sender kind target = Some message ->
  known_kind kind = true /\
  process_message (JObject d) sender st =
  send_system_message sender message st.
Proof.
  intros H1 H2 H3. rewrite (@process_envelope d sender kind target body st H1 H2 H3).
  unfold refusal, known_kind.
  destruct (String.eqb kind "private") eqn:K1.
  { destruct (mem (clients st) target) eqn:E; [discriminate|].
    intros [= <-]. split; auto.
    apply private_not_found. now apply mem_false. }
  destruct (String.eqb kind "group") eqn:K2.
  { intros H. split; auto. apply String.eqb_eq in K2.
    destruct (get (groups st) target) as [members|] eqn:E.
    - destruct (list_in sender members) eqn:L; [discriminate|].
      injection H as <-. apply group_refused. right. now exists members.
    - injection H as <-. apply group_refused. now left. }
  destruct (String.eqb kind "create") eqn:K3.
  { destruct (mem (groups st) target) eqn:E; [|discriminate].
    intros [= <-]. split; auto. now apply create_taken. }
  destruct (String.eqb kind "join") eqn:K4; [|discriminate].
  intros H. split; auto.
  destruct (get (groups st) target) as [members|] eqn:E.
  - destruct (list_in sender members) eqn:L; [|discriminate].
    injection H as <-. now apply (@join_member st sender target members).
  - injection H as <-. now apply join_missing.
Qed.

(** C9, amended.  An envelope whose kind is none of [private], [group],
    [create] and [join] is dropped: nothing is written, nothing is raised,
    the registry and the directory are what they were, and the worker goes
    on reading.  For a sender that is in the registry, with a socket that
    takes the write, it is the only refusal without a notice: an operation
    of one of the four kinds that is refused is answered by one call of
    [send_system_message] for the sender, which for such a sender is one
    write on the sender's socket. *)
Theorem unknown_kind_is_ignored
  (st : server) (sender : string) (d : dict string)
  (kind target body : string) :
  get d "status" = Some kind ->
  get d "receiver" = Some target ->
  get d "text" = Some body ->
  (known_kind kind = false ->
     process_message (JObject d) sender st = (st, Val tt) /\
     refusal st sender kind target = None /\
     forall json_loads s message,
       String.eqb message "" = false ->
       json_loads message = Val (JObject d) ->
       session json_loads s sender [Val message] st = (st, Waiting)) /\
  (forall message,
     refusal st sender kind target = Some message ->
     known_kind kind = true /\
     process_message (JObject d) sender st =
     send_system_message sender message st /\
     forall s,
       lookup st sender = Some s ->
       writable st s = true ->
       process_message (JObject d) sender st =
       (wrote [(s, notice sender message)] st, Val tt)).
Proof.
  intros H1 H2 H3. split.
  - intros Hk.
    assert (Hp : process_message (JObject d) sender st = (st, Val tt)).
    { rewrite (@process_envelope d sender kind target body st H1 H2 H3).
      destruct (@known_kind_false kind Hk) as (-> & -> & -> & ->).
      reflexivity. }
    split; [exact Hp|]. split.
    + unfold refusal.
      destruct (@known_kind_false kind Hk) as (-> & -> & -> & ->).
      reflexivity.
    + intros json_loads s message Hne Hj. unfold session. simpl.
      rewrite Hne. unfold bind at 1. unfold loads. rewrite Hj.
      unfold bind. rewrite Hp. reflexivity.
  - intros message Hr.
    destruct (@refused_is_notified d sender kind target body message st
                H1 H2 H3 Hr) as [Hk Hp].
    repeat split; auto.
    intros s Hs Hw. rewrite Hp. now apply notice_delivered.
Qed.

Lemma unknown_kind_is_ignored_witness :
  let st := {| clients := [("alice", 1); ("bob", 2)];
               groups := [("proj", ["bob"])];
               wire := []; closed := []; faulty := [] |} in
  let d := [("status", "leave"); ("sender", "alice");
            ("receiver", "proj"); ("text", "")] in
  process_message (JObject d) "alice" st = (st, Val tt).
Proof.
  intros st d.
  exact (proj1 (proj1 (@unknown_kind_is_ignored st "alice" d
                         "leave" "proj" "" eq_refl eq_refl eq_refl)
                  eq_refl)).
Defined.

(** C9, as stated, fails: a refused private message of a sender who has no
    entry in the registry writes nothing either.  Such a sender occurs:
    two connections give the name alice, the first closes, and the second
    then writes to a name that is not registered; the state stays as it
    was and the worker goes on. *)
Lemma refusal_of_unregistered_sender_is_silent :
  ~ every_refusal_is_notified /\
  (let w := run unsigned_loads {| srv := boot []; threads := [] |}
              [Accept 1 (Val "alice"); Accept 2 (Val "alice");
               Accept 3 (Val "bob"); Recv 1 (Val "")] in
   thread_of (threads w) 2 = Some "alice" /\
   lookup (srv w) "alice" = None /\
   refusal (srv w) "alice" "private" "nobody" =
   Some "User nobody not found." /\
   step unsigned_loads w (Recv 2 (Val "hello")) = w).
Proof.
  split.
  - intros H.
    apply (H {| clients := [("bob", 2)]; groups := []; wire := [];
                closed := []; faulty := [] |}
             "alice"
             [("status", "private"); ("receiver", "nobody"); ("text", "hi")]
             "private" "nobody" "hi" "User nobody not found."
             eq_refl eq_refl eq_refl eq_refl).
    reflexivity.
  - repeat split; reflexivity.
Qed.

(** * Write failures *)

(** With bob's peer gone, the system broadcast reaches alice and stops:
    carol, whose socket works, gets nothing, and the exception leaves the
    function. *)
Lemma broadcast_stops_at_bob :
  broadcast_system_message "maintenance" bob_is_gone =
  (wrote [(1, message_to_json "system" "SERVER" "ALL" "maintenance")]
     bob_is_gone,
   Exc BrokenPipeError).
Proof. reflexivity. Qed.

(** A group message of alice stops at bob as well, before carol. *)
Lemma group_message_stops_at_bob :
  send_group_message "alice" "proj" "hi" bob_is_gone =
  (bob_is_gone, Exc BrokenPipeError).
Proof. reflexivity. Qed.

(** The state [bob_is_gone] arises in a run of the server, and alice's
    group message then ends alice's own session: her worker is gone, she
    is out of the registry, and carol has received neither the message
    nor the notice of alice's departure. *)
Lemma sender_session_ends_on_bobs_failure :
  let before :=
    run sample_loads {| srv := boot []; threads := [] |}
      [Accept 1 (Val "alice"); Accept 2 (Val "bob"); Accept 3 (Val "carol");
       Recv 1 (Val "/create proj"); Recv 2 (Val "/join proj");
       Recv 3 (Val "/join proj"); Lost 2 BrokenPipeError] in
  let after := step sample_loads before (Recv 1 (Val "/group proj hi")) in
  clients (srv before) = clients bob_is_gone /\
  groups (srv before) = groups bob_is_gone /\
  faulty (srv before) = faulty bob_is_gone /\
  thread_of (threads after) 1 = None /\
  lookup (srv after) "alice" = None /\
  lookup (srv after) "carol" = Some 3 /\
  wire (srv after) = wire (srv before).
Proof. repeat split; reflexivity. Qed.

(** Write failures are not isolated: a failing write does end the loop of
    a broadcast before the sessions behind it, and does reach the sender
    of a group message as an exception. *)
Lemma write_failure_is_not_isolated :
  ~ broadcast_reaches_all /\ ~ group_send_never_raises.
Proof.
  split.
  - intros H.
    specialize (H bob_is_gone "maintenance" "carol" 3 eq_refl eq_refl).
    rewrite broadcast_stops_at_bob in H. simpl in H.
    destruct H as [H | []]. discriminate H.
  - intros H. specialize (H bob_is_gone "alice" "proj" "hi").
    rewrite group_message_stops_at_bob in H. discriminate H.
Qed.

(** What the code does in general: a loop of writes goes through its
    targets in the order of iteration up to the first target whose write
    fails, and that failure leaves the function as an exception. *)
Theorem write_failure_ends_the_loop (st : server) :
  (forall message,
     let msg := message_to_json "system" "SERVER" "ALL" message in
     let socks := values (clients st) in
     broadcast_system_message message st =
     (wrote (to_each msg (served st socks)) st, loop_result st socks) /\
     (all_writable st socks ->
      broadcast_system_message message st =
      (wrote (to_each msg socks) st, Val tt)) /\
     (~ all_writable st socks ->
      exists e, snd (broadcast_system_message message st) = Exc e) /\
     exists unserved, socks = served st socks ++ unserved) /\
  (forall sender g body members,
     get (groups st) g = Some members ->
     list_in sender members = true ->
     let msg := message_to_json "group" sender g body in
     let socks := group_targets st sender members in
     send_group_message sender g body st =
     (wrote (to_each msg (served st socks)) st, loop_result st socks) /\
     (all_writable st socks ->
      send_group_message sender g body st =
      (wrote (to_each msg socks) st, Val tt)) /\
     (~ all_writable st socks ->
      exists e, snd (send_group_message sender g body st) = Exc e) /\
     exists unserved, socks = served st socks ++ unserved) /\
  (forall json_loads s sender message rest d g body st1 e,
     String.eqb message "" = false ->
     json_loads message = Val (JObject d) ->
     get d "status" = Some "group" ->
     get d "receiver" = Some g ->
     get d "text" = Some body ->
     send_group_message sender g body st = (st1, Exc e) ->
     let after := session json_loads s sender (Val message :: rest) st in
     fst after = fst (cleanup s sender st1) /\ snd after <> Waiting).
Proof.
  assert (Hloop : forall m socks,
    for_each socks (fun c => sendall c m) st =
    (wrote (to_each m (served st socks)) st, loop_result st socks) /\
    (all_writable st socks ->
     for_each socks (fun c => sendall c m) st =
     (wrote (to_each m socks) st, Val tt)) /\
    (~ all_writable st socks ->
     exists e, snd (for_each socks (fun c => sendall c m) st) = Exc e) /\
    exists unserved, socks = served st socks ++ unserved).
  { intros m socks. split; [apply write_loop|].
    split; [apply write_loop_all|]. split; [|apply served_prefix].
    intros Hnot. rewrite write_loop. unfold loop_result. simpl.
    destruct (first_error_some Hnot) as [e ->]. now exists e. }
  split; [|split].
  - intros message msg socks. apply Hloop.
  - intros sender g body members Hg Hin msg socks.
    rewrite (@group_accepted st sender g body members Hg Hin).
    apply Hloop.
  - intros json_loads s sender message rest d g body st1 e
           Hne Hj H1 H2 H3 Hsend.
    apply session_closing with (r := Exc e); [|discriminate].
    simpl. rewrite Hne. unfold bind at 1. unfold loads. rewrite Hj.
    unfold bind. rewrite (@process_envelope d sender "group" g body st H1 H2 H3).
    simpl. now rewrite Hsend.
Qed.

Lemma write_failure_ends_the_loop_witness :
  let st := {| clients := [("alice", 1); ("bob", 2); ("carol", 3)];
               groups := []; wire := []; closed := []; faulty := [] |} in
  broadcast_system_message "maintenance" st =
  (wrote (to_each (message_to_json "system" "SERVER" "ALL" "maintenance")
            [1; 2; 3]) st, Val tt).
Proof.
  intros st.
  apply (proj1 (proj2 (proj1 (write_failure_ends_the_loop st) "maintenance"))).
  repeat constructor.
Defined.

(** C6.  The code at the state [bob_is_gone], where alice, bob and carol
    are registered and in the group [proj] and only bob's peer is gone.
    The system broadcast is written to alice and then raises: carol, who
    is registered with a working socket, is not written to.  A group
    message of alice raises before it reaches carol, the exception ends
    alice's own worker, alice is deregistered and her socket closed, and
    the notice of her departure fails on bob as well. *)
Theorem bobs_failure_cuts_off_carol_and_ends_alice :
  lookup bob_is_gone "carol" = Some 3 /\
  writable bob_is_gone 3 = true /\
  broadcast_system_message "maintenance" bob_is_gone =
  (wrote [(1, message_to_json "system" "SERVER" "ALL" "maintenance")]
     bob_is_gone,
   Exc BrokenPipeError) /\
  send_group_message "alice" "proj" "hi" bob_is_gone =
  (bob_is_gone, Exc BrokenPipeError) /\
  session sample_loads 1 "alice" [Val "/group proj hi"] bob_is_gone =
  (departed 1 "alice" bob_is_gone, Died BrokenPipeError) /\
  wire (departed 1 "alice" bob_is_gone) = [] /\
  ~ broadcast_reaches_all /\
  ~ group_send_never_raises.
Proof.
  destruct write_failure_is_not_isolated as [H1 H2].
  repeat split; try reflexivity; assumption.
Qed.

(** * More on the server: what a dispatch touches *)

Section WroteOnly.

Variable P : sock * msg_data -> Prop.

Lemma wrote_only_refl st : wrote_only P st st.
Proof.
  repeat split; auto. exists []. split; auto using app_nil_r.
Qed.

Lemma wrote_only_trans a b c :
  wrote_only P a b -> wrote_only P b c -> wrote_only P a c.
Proof.
  intros (C1 & L1 & F1 & o1 & W1 & P1) (C2 & L2 & F2 & o2 & W2 & P2).
  repeat split; try congruence.
  exists (o1 ++ o2). split.
  - rewrite W2, W1. now rewrite app_assoc.
  - apply Forall_app. auto.
Qed.

Lemma wrote_only_wrote out st : Forall P out -> wrote_only P st (wrote out st).
Proof. intros H. repeat split; auto. now exists out. Qed.

Lemma wrote_only_groups g st st' :
  wrote_only P (with_groups g st) st' -> wrote_only P st st'.
Proof. intros H. exact H. Qed.

Lemma wrote_only_sendall s m st :
  P (s, m) -> wrote_only P st (fst (sendall s m st)).
Proof.
  intros H. rewrite sendall_eq.
  destruct (write_error st s); simpl.
  - apply wrote_only_refl.
  - apply wrote_only_wrote. auto.
Qed.

Lemma wrote_only_loop m ss st :
  (forall s, In s ss -> P (s, m)) ->
  wrote_only P st (fst (for_each ss (fun c => sendall c m) st)).
Proof.
  intros H. rewrite write_loop. simpl. apply wrote_only_wrote.
  destruct (served_prefix st ss) as [rest E].
  unfold to_each. apply Forall_forall. intros [s m'] Hin.
  apply in_map_iff in Hin. destruct Hin as (s0 & [= -> ->] & Hs).
  apply H. rewrite E. apply in_or_app. now left.
Qed.

Lemma wrote_only_notice user message st :
  (forall s, lookup st user = Some s -> P (s, notice user message)) ->
  wrote_only P st (fst (send_system_message user message st)).
Proof.
  unfold lookup, send_system_message. intros H.
  destruct (get (clients st) user) as [s|].
  - apply wrote_only_sendall. now apply H.
  - apply wrote_only_refl.
Qed.

End WroteOnly.

Lemma wrote_only_weaken (P Q : sock * msg_data -> Prop) st st' :
  (forall e, P e -> Q e) -> wrote_only P st st' -> wrote_only Q st st'.
Proof.
  intros H (C & L & F & out & W & Hout). repeat split; auto.
  exists out. split; auto. eapply Forall_impl; eauto.
Qed.

Lemma proper_notice st user message s :
  lookup st user = Some s -> proper st user (s, notice user message).
Proof. intros H. simpl. right. right. auto. Qed.

(** The dispatch of a message changes neither the registry nor a socket,
    and writes only what is [proper]. *)
Lemma process_wrote_only data user st :
  wrote_only (proper st user) st (fst (process_message data user st)).
Proof.
  assert (Hn : forall message g,
    wrote_only (proper st user) st
      (fst (send_system_message user message (with_groups g st)))).
  { intros message g. apply wrote_only_groups with (g := g).
    apply wrote_only_notice. intros s Hs.
    now apply proper_notice. }
  assert (Hn0 : forall message,
    wrote_only (proper st user) st
      (fst (send_system_message user message st))).
  { intros message. apply wrote_only_notice. intros s Hs.
    now apply proper_notice. }
  destruct data as [d|]; [|apply wrote_only_refl].
  destruct (get d "status") as [kind|] eqn:E1;
    [destruct (get d "receiver") as [target|] eqn:E2;
     [destruct (get d "text") as [body|] eqn:E3|]|].
  - rewrite (@process_envelope d user kind target body st E1 E2 E3).
    destruct (String.eqb kind "private").
    { unfold send_private_message.
      destruct (get (clients st) target) as [s|] eqn:G; [|apply Hn0].
      apply wrote_only_sendall. simpl. left. auto. }
    destruct (String.eqb kind "group").
    { unfold send_group_message.
      destruct (get (groups st) target) as [members|] eqn:G; [|apply Hn0].
      destruct (list_in user members) eqn:L; [|apply Hn0].
      rewrite group_loop. apply wrote_only_loop.
      intros s Hs. apply in_group_targets in Hs.
      destruct Hs as (other & Hin & Hne & Hl).
      simpl. right. left. repeat split; auto.
      exists members, other. repeat split; auto.
      now apply list_in_true. }
    destruct (String.eqb kind "create").
    { unfold create_group.
      destruct (negb (mem (groups st) target)); [apply Hn | apply Hn0]. }
    destruct (String.eqb kind "join"); [|apply wrote_only_refl].
    unfold join_group.
    destruct (get (groups st) target) as [members|]; [|apply Hn0].
    destruct (negb (list_in user members)); [apply Hn | apply Hn0].
  - destruct (process_undecodable (JObject d) user st) as [e ->].
    + unfold has_key, mem. rewrite E3. now rewrite andb_false_r.
    + apply wrote_only_refl.
  - destruct (process_undecodable (JObject d) user st) as [e ->].
    + unfold has_key, mem. rewrite E2. now rewrite andb_false_r.
    + apply wrote_only_refl.
  - destruct (process_undecodable (JObject d) user st) as [e ->].
    + unfold has_key, mem. now rewrite E1.
    + apply wrote_only_refl.
Qed.

Lemma serve_wrote_only json_loads username reads : forall st,
  wrote_only (fun _ => True) st (fst (serve json_loads username reads st)).
Proof.
  induction reads as [|[message|e] reads IH]; intros st; simpl;
    try apply wrote_only_refl.
  destruct (String.eqb message ""); [apply wrote_only_refl|].
  unfold bind at 1. unfold loads.
  destruct (json_loads message) as [data|e]; [|apply wrote_only_refl].
  unfold bind.
  pose proof (process_wrote_only data username st) as Hp.
  apply wrote_only_weaken with (Q := fun _ => True) in Hp; [|auto].
  destruct (process_message data username st) as [st1 [u|e]]; simpl in *.
  - eapply wrote_only_trans; [exact Hp | apply IH].
  - exact Hp.
Qed.

Lemma session_waiting json_loads s username reads st :
  snd (session json_loads s username reads st) = Waiting ->
  fst (session json_loads s username reads st) =
  fst (serve json_loads username reads st).
Proof.
  unfold session.
  destruct (serve json_loads username reads st) as [st1 [[|]|e]]; simpl;
    auto;
    destruct (cleanup s username st1) as [st2 [u|e']]; simpl;
    try discriminate.
  destruct (caught e); discriminate.
Qed.

Lemma session_ended json_loads s username reads st :
  snd (session json_loads s username reads st) <> Waiting ->
  fst (session json_loads s username reads st) =
  fst (cleanup s username (fst (serve json_loads username reads st))).
Proof.
  unfold session.
  destruct (serve json_loads username reads st) as [st1 [[|]|e]]; simpl;
    try congruence;
    now destruct (cleanup s username st1) as [st2 [u|e']].
Qed.

(** * More on the server: the registry and the workers *)

Lemma thread_of_none ts s :
  thread_of ts s = None <-> ~ In s (map fst ts).
Proof.
  induction ts as [|[s' u] ts IH]; simpl; [tauto|].
  destruct (Nat.eqb s s') eqn:E.
  - apply Nat.eqb_eq in E. subst. split; [discriminate | tauto].
  - apply Nat.eqb_neq in E. rewrite IH. split.
    + intros H [H1 | H1]; [congruence | tauto].
    + tauto.
Qed.

Lemma thread_of_in ts s u : thread_of ts s = Some u -> In (s, u) ts.
Proof.
  induction ts as [|[s' u'] ts IH]; simpl; [discriminate|].
  destruct (Nat.eqb s s') eqn:E.
  - apply Nat.eqb_eq in E. intros [= ->]. subst. now left.
  - intros H. right. auto.
Qed.

Lemma in_thread_of ts s u :
  NoDup (map fst ts) -> In (s, u) ts -> thread_of ts s = Some u.
Proof.
  induction ts as [|[s' u'] ts IH]; simpl; [tauto|].
  intros Hnd [H | H].
  - inversion H; subst. now rewrite Nat.eqb_refl.
  - inversion Hnd as [|? ? Hnot Hnd']; subst.
    destruct (Nat.eqb s s') eqn:E; auto.
    apply Nat.eqb_eq in E. subst s'. exfalso. apply Hnot.
    change s with (fst (s, u)). now apply in_map.
Qed.

Lemma thread_of_app_old ts ts' s u :
  thread_of ts s = Some u -> thread_of (ts ++ ts') s = Some u.
Proof.
  induction ts as [|[s' u'] ts IH]; simpl; [discriminate|].
  destruct (Nat.eqb s s'); auto.
Qed.

Lemma thread_of_app_new ts s u :
  thread_of ts s = None -> thread_of (ts ++ [(s, u)]) s = Some u.
Proof.
  induction ts as [|[s' u'] ts IH]; simpl.
  - now rewrite Nat.eqb_refl.
  - destruct (Nat.eqb s s'); [discriminate | auto].
Qed.

Lemma thread_of_drop_other ts s s' :
  s' <> s -> thread_of (drop_thread ts s) s' = thread_of ts s'.
Proof.
  intros Hne. unfold drop_thread.
  induction ts as [|[s0 u0] ts IH]; simpl; auto.
  destruct (Nat.eqb s0 s) eqn:E; simpl.
  - apply Nat.eqb_eq in E. subst s0.
    apply Nat.eqb_neq in Hne. now rewrite Hne.
  - now rewrite IH.
Qed.

Lemma in_drop_thread ts s t :
  In t (drop_thread ts s) <-> In t ts /\ fst t <> s.
Proof.
  unfold drop_thread. rewrite filter_In, negb_true_iff, Nat.eqb_neq. tauto.
Qed.

Lemma nodup_drop_thread ts s :
  NoDup (map fst ts) -> NoDup (map fst (drop_thread ts s)).
Proof.
  unfold drop_thread.
  induction ts as [|[s0 u0] ts IH]; simpl; auto.
  intros Hnd. inversion Hnd as [|? ? Hnot Hnd']; subst.
  destruct (negb (Nat.eqb s0 s)); simpl; auto.
  constructor; auto.
  intros Hin. apply Hnot. apply in_map_iff in Hin.
  destruct Hin as (t & E & Ht). apply filter_In in Ht.
  apply in_map_iff. exists t. tauto.
Qed.

Lemma in_set {V} (d : dict V) k v k' v' :
  In (k', v') (set d k v) -> (k', v') = (k, v) \/ In (k', v') d.
Proof.
  induction d as [|[k0 v0] d IH]; simpl.
  - intros [H | []]. now left.
  - destruct (String.eqb k k0) eqn:E; simpl.
    + apply String.eqb_eq in E. subst k0.
      intros [H | H]; [left | right; right]; auto.
    + intros [H | H]; [right; left | ]; auto.
      destruct (IH H); auto.
Qed.

Lemma is_closed_cons st s s' :
  is_closed (with_closed (s :: closed st) st) s' =
  Nat.eqb s' s || is_closed st s'.
Proof. reflexivity. Qed.

Lemma live_registry_step json_loads w ev :
  live_registry w -> live_registry (step json_loads w ev).
Proof.
  intros (Hwf & Hnd & Hopen & Hreg).
  destruct ev as [s hello | s r | s e]; simpl.
  - (* a new connection *)
    unfold fresh. destruct (thread_of (threads w) s) eqn:Ht;
      [repeat split; auto|].
    destruct (is_closed (srv w) s) eqn:Hc; simpl; [repeat split; auto|].
    destruct hello as [username|e]; [|repeat split; auto].
    repeat split; simpl.
    + now apply wf_set.
    + rewrite map_app. simpl. apply NoDup_app; auto.
      * repeat constructor. simpl. tauto.
      * intros x Hx [<- | []]. now apply thread_of_none in Ht.
    + intros s' u Hin. apply in_app_or in Hin.
      destruct Hin as [Hin | [[= <- <-] | []]]; [|exact Hc].
      exact (Hopen s' u Hin).
    + intros u s' Hin. apply in_set in Hin.
      destruct Hin as [[= -> ->] | Hin].
      * now apply thread_of_app_new.
      * apply thread_of_app_old. now apply Hreg.
  - (* a read of a worker *)
    destruct (thread_of (threads w) s) as [username|] eqn:Ht;
      [|repeat split; auto].
    pose proof (session_waiting json_loads s username [r] (srv w)) as Hw.
    pose proof (session_ended json_loads s username [r] (srv w)) as He.
    remember (fst (serve json_loads username [r] (srv w))) as st1 eqn:E1.
    assert (Hc1 : clients st1 = clients (srv w) /\
                  closed st1 = closed (srv w)).
    { subst st1.
      destruct (serve_wrote_only json_loads username [r] (srv w))
        as (H1 & H2 & _). auto. }
    destruct Hc1 as [Hc1 Hl1].
    assert (Hend :
      forall st', st' = fst (cleanup s username st1) ->
      live_registry {| srv := st'; threads := drop_thread (threads w) s |}).
    { intros st' ->.
      destruct (cleanup_state s username st1) as (Hc2 & _ & Hl2 & _).
      rewrite Hc1 in Hc2. rewrite Hl1 in Hl2.
      repeat split; cbn [srv threads].
      - rewrite Hc2. now apply wf_del.
      - now apply nodup_drop_thread.
      - intros s' u Hin. apply in_drop_thread in Hin.
        destruct Hin as [Hin Hne]. cbn [fst] in Hne.
        unfold is_closed. rewrite Hl2. cbn [existsb].
        apply Nat.eqb_neq in Hne. rewrite Hne. cbn [orb].
        exact (Hopen s' u Hin).
      - intros u s' Hin. rewrite Hc2 in Hin.
        apply in_del in Hin; [|exact Hwf]. destruct Hin as [Hne Hin].
        assert (Hs : s' <> s).
        { intros ->. apply Hreg in Hin. congruence. }
        rewrite thread_of_drop_other by exact Hs. now apply Hreg. }
    destruct (session json_loads s username [r] (srv w)) as [st' [| |e]];
      cbn [fst snd] in *.
    + rewrite Hw by reflexivity.
      repeat split; cbn [srv threads]; try rewrite Hc1; auto.
      intros s' u Hin. unfold is_closed. rewrite Hl1.
      exact (Hopen s' u Hin).
    + apply Hend. apply He. discriminate.
    + apply Hend. apply He. discriminate.
  - (* a peer is lost *)
    repeat split; auto.
Qed.

Lemma live_registry_run json_loads evs : forall w,
  live_registry w -> live_registry (run json_loads w evs).
Proof.
  unfold run. induction evs as [|ev evs IH]; intros w H; simpl; auto.
  apply IH. now apply live_registry_step.
Qed.

Lemma live_registry_boot down :
  live_registry {| srv := boot down; threads := [] |}.
Proof.
  repeat split; simpl; try constructor; intros; contradiction.
Qed.

(** X1.  In every state that a run of the server reaches from its start,
    a socket in the registry has not been closed by the server and is the
    socket of a running worker whose name is the key of the entry; so no
    socket is registered under two names. *)
Theorem registered_sockets_are_live
  (json_loads : string -> result json_value)
  (down : list (sock * exn)) (evs : list event) :
  let w := run json_loads {| srv := boot down; threads := [] |} evs in
  forall user s,
    lookup (srv w) user = Some s ->
    is_closed (srv w) s = false /\
    thread_of (threads w) s = Some user /\
    forall user', lookup (srv w) user' = Some s -> user' = user.
Proof.
  intros w user s Hl.
  destruct (@live_registry_run json_loads evs _ (live_registry_boot down))
    as (Hwf & Hnd & Hopen & Hreg).
  fold w in Hwf, Hnd, Hopen, Hreg.
  assert (Ht : thread_of (threads w) s = Some user)
    by (apply Hreg; now apply get_some_in).
  repeat split; auto.
  - apply (Hopen s user). now apply thread_of_in.
  - intros user' Hl'. apply get_some_in in Hl'. apply Hreg in Hl'.
    congruence.
Qed.

(** X2.  A worker changes the registry only when it ends.  While it waits
    for input, the registry and the closed sockets are what they were
    before its reads; once it has ended, in whatever way, its name is out
    of the registry, nothing else is, and its socket is the one socket that
    was closed. *)
Theorem session_changes_registry_only_at_its_end
  (json_loads : string -> result json_value) (s : sock) (username : string)
  (reads : list (result string)) (st : server) :
  wf (clients st) ->
  let after := session json_loads s username reads st in
  (snd after = Waiting ->
   clients (fst after) = clients st /\ closed (fst after) = closed st) /\
  (snd after <> Waiting ->
   clients (fst after) = del (clients st) username /\
   lookup (fst after) username = None /\
   closed (fst after) = s :: closed st).
Proof.
  intros Hwf after.
  destruct (serve_wrote_only json_loads username reads st)
    as (Hc & Hl & _).
  split; intros H.
  - unfold after. rewrite session_waiting by exact H. auto.
  - unfold after. rewrite session_ended by exact H.
    destruct (cleanup_state s username
               (fst (serve json_loads username reads st)))
      as (Hc2 & _ & Hl2 & _).
    rewrite Hc in Hc2. rewrite Hl in Hl2. repeat split; auto.
    unfold lookup. rewrite Hc2. now apply get_del_same.
Qed.

Lemma session_changes_registry_only_at_its_end_witness :
  let st := {| clients := [("alice", 1); ("bob", 2)]; groups := [];
               wire := []; closed := []; faulty := [] |} in
  let after := session sample_loads 1 "alice" [Val "/create proj"; Val ""] st
  in clients (fst after) = [("bob", 2)] /\
     lookup (fst after) "alice" = None /\
     closed (fst after) = [1].
Proof.
  intros st.
  refine (proj2 (@session_changes_registry_only_at_its_end
                   sample_loads 1 "alice" [Val "/create proj"; Val ""] st _)
            _).
  - unfold wf. simpl. repeat constructor; simpl; intuition discriminate.
  - discriminate.
Defined.

(** X3.  The dispatch of a message, whatever the message holds and
    whether or not a write fails, leaves the registry and the sockets as
    they are and writes nothing but: a private message, with the worker's
    own name as its sender, on the socket of its target; a group message,
    with the worker's own name as its sender, on the socket of another
    member of a group the worker's name is a member of; a system notice
    addressed to the worker's name, on the socket registered for that
    name.  The sender named inside the message plays no part. *)
Theorem dispatch_writes_only_what_is_due
  (data : json_value) (user : string) (st : server) :
  let st' := fst (process_message data user st) in
  clients st' = clients st /\ closed st' = closed st /\
  exists out, wire st' = wire st ++ out /\ Forall (proper st user) out.
Proof.
  intros st'.
  destruct (process_wrote_only data user st) as (H1 & H2 & _ & H3).
  auto.
Qed.

(** X4.  Membership outlives the connection.  When a member of a group
    disconnects, the group keeps it as a member while group messages skip
    it; a connection that later registers under the same name gets the
    group's messages on its new socket without joining, and its [join]
    is answered with "already in group". *)
Theorem membership_outlives_the_connection
  (st : server) (s s' : sock) (user other g : string)
  (members : list string) :
  wf (clients st) ->
  get (groups st) g = Some members ->
  In user members ->
  In other members ->
  other <> user ->
  let gone := fst (cleanup s user st) in
  let back := fst (register user s' gone) in
  get (groups gone) g = Some members /\
  (forall c, In c (group_targets gone other members) ->
             exists member, member <> user /\ lookup st member = Some c) /\
  get (groups back) g = Some members /\
  In s' (group_targets back other members) /\
  join_group user g back =
  send_system_message user ("You are already in group " ++ g ++ ".") back.
Proof.
  intros Hwf Hg Hu Ho Hne gone back.
  assert (Hgg : groups gone = groups st) by apply keeps_cleanup.
  assert (Hgb : groups back = groups st) by exact Hgg.
  destruct (cleanup_state s user st) as (Hc & _).
  fold gone in Hc.
  repeat split.
  - now rewrite Hgg.
  - intros c Hin. apply in_group_targets in Hin.
    destruct Hin as (member & _ & _ & Hl). unfold lookup in Hl.
    rewrite Hc in Hl. exists member.
    destruct (string_dec user member) as [<- | Hd].
    + rewrite get_del_same in Hl by exact Hwf. discriminate.
    + rewrite get_del_other in Hl by exact Hd. split; auto.
  - now rewrite Hgb.
  - apply in_group_targets. exists user. repeat split; auto.
    apply lookup_register_same.
  - apply (@join_member back user g members).
    + now rewrite Hgb.
    + now apply list_in_true.
Qed.

Lemma membership_outlives_the_connection_witness :
  let st := {| clients := [("alice", 1); ("bob", 2)];
               groups := [("proj", ["alice"; "bob"])];
               wire := []; closed := []; faulty := [] |} in
  In 7 (group_targets (fst (register "bob" 7 (fst (cleanup 2 "bob" st))))
          "alice" ["alice"; "bob"]).
Proof.
  intros st.
  refine (proj1 (proj2 (proj2 (proj2
    (@membership_outlives_the_connection st 2 7 "bob" "alice" "proj"
       ["alice"; "bob"] _ eq_refl _ _ _))))).
  - unfold wf. simpl. repeat constructor; simpl; intuition discriminate.
  - simpl. tauto.
  - simpl. tauto.
  - discriminate.
Defined.

(** X5.  A closing worker deletes the registry entry of its name whatever
    socket the entry holds.  When two connections gave the same name and
    the entry is the other one's, that other connection, still open, is
    out of the registry from then on: private messages to the name are
    answered with "not found". *)
Theorem closing_evicts_a_namesake
  (st : server) (s s' : sock) (user : string) :
  wf (clients st) ->
  lookup st user = Some s' ->
  s' <> s ->
  let st' := fst (cleanup s user st) in
  lookup st' user = None /\
  is_closed st' s' = is_closed st s' /\
  forall sender body,
    send_private_message sender user body st' =
    send_system_message sender ("User " ++ user ++ " not found.") st'.
Proof.
  intros Hwf Hl Hne st'.
  destruct (cleanup_state s user st) as (Hc & _ & Hcl & _).
  fold st' in Hc, Hcl.
  assert (Hnone : lookup st' user = None).
  { unfold lookup. rewrite Hc. now apply get_del_same. }
  repeat split; auto.
  - unfold is_closed. rewrite Hcl. simpl.
    apply Nat.eqb_neq in Hne. now rewrite Hne.
  - intros sender body. now apply private_not_found.
Qed.

Lemma closing_evicts_a_namesake_witness :
  let st := {| clients := [("alice", 2)]; groups := [];
               wire := []; closed := []; faulty := [] |} in
  lookup (fst (cleanup 1 "alice" st)) "alice" = None.
Proof.
  intros st.
  refine (proj1 (@closing_evicts_a_namesake st 1 2 "alice" _ eq_refl _)).
  - unfold wf. simpl. repeat constructor. simpl. tauto.
  - discriminate.
Defined.

Lemma departed_absent s user st :
  lookup st user = None ->
  departed s user st = with_closed (s :: closed st) st.
Proof.
  intros H. unfold departed. rewrite del_absent by exact H.
  now rewrite with_clients_same.
Qed.

(** X6.  A connection under an unused name that closes before it sends a
    message leaves the registry exactly as it was, order included; the
    socket is closed, and every client that was registered gets the notice
    that the name has left the chat.  The name may be empty, as it is when
    the connection closes before sending one. *)
Theorem connect_then_disconnect
  (json_loads : string -> result json_value) (s : sock) (user : string)
  (st : server) :
  lookup st user = None ->
  all_writable (departed s user st) (values (clients st)) ->
  handle_client json_loads s (Val user) [Val ""] st =
  (wrote (to_each (farewell user) (values (clients st)))
     (departed s user st),
   Returned) /\
  clients (departed s user st) = clients st.
Proof.
  intros Habs Hall.
  assert (Hd : departed s user (fst (register user s st)) =
               departed s user st).
  { unfold departed, register. simpl.
    rewrite del_set_absent by exact Habs.
    rewrite del_absent by exact Habs. reflexivity. }
  split.
  - unfold handle_client, session. rewrite serve_eof.
    rewrite cleanup_eq. unfold broadcast_system_message. rewrite Hd.
    rewrite departed_absent by exact Habs. simpl clients.
    rewrite departed_absent in Hall by exact Habs.
    rewrite write_loop_all by exact Hall. reflexivity.
  - rewrite departed_absent by exact Habs. reflexivity.
Qed.

Lemma connect_then_disconnect_witness :
  let st := {| clients := [("alice", 1); ("bob", 2)]; groups := [];
               wire := []; closed := []; faulty := [] |} in
  handle_client sample_loads 3 (Val "") [Val ""] st =
  (wrote [(1, farewell ""); (2, farewell "")] (departed 3 "" st), Returned).
Proof.
  intros st.
  refine (proj1 (@connect_then_disconnect sample_loads 3 "" st eq_refl _)).
  repeat constructor.
Defined.

(** X7.  [create_group] and [join_group] change the directory before they
    write their notice.  When that write fails, the exception leaves the
    function and the change stays: the group exists, or has its new
    member, although the worker that asked is then closed. *)
Theorem directory_change_survives_failed_notice
  (st : server) (sender g : string) (s : sock) (e : exn) :
  lookup st sender = Some s ->
  write_error st s = Some e ->
  (mem (groups st) g = false ->
   create_group sender g st =
   (with_groups (set (groups st) g [sender]) st, Exc e)) /\
  (forall members,
     get (groups st) g = Some members ->
     list_in sender members = false ->
     join_group sender g st =
     (with_groups (set (groups st) g (members ++ [sender])) st, Exc e)) /\
  (forall json_loads c message d body,
     String.eqb message "" = false ->
     json_loads message = Val (JObject d) ->
     get d "status" = Some "create" ->
     get d "receiver" = Some g ->
     get d "text" = Some body ->
     mem (groups st) g = false ->
     let after := session json_loads c sender [Val message] st in
     snd after <> Waiting /\ get (groups (fst after)) g = Some [sender]).
Proof.
  intros Hl He.
  assert (Hn : forall message gs,
    send_system_message sender message (with_groups gs st) =
    (with_groups gs st, Exc e)).
  { intros message gs. unfold send_system_message. simpl.
    unfold lookup in Hl. rewrite Hl. rewrite sendall_eq.
    change (write_error (with_groups gs st) s) with (write_error st s).
    now rewrite He. }
  assert (Hcreate : mem (groups st) g = false ->
    create_group sender g st =
    (with_groups (set (groups st) g [sender]) st, Exc e)).
  { intros Hm. rewrite create_fresh by exact Hm. apply Hn. }
  split; [exact Hcreate|]. split.
  - intros members Hg Hin.
    rewrite (@join_new st sender g members Hg Hin). apply Hn.
  - intros json_loads c message d body Hne Hj H1 H2 H3 Hm after.
    assert (Hs : serve json_loads sender [Val message] st =
                 (with_groups (set (groups st) g [sender]) st, Exc e)).
    { simpl. rewrite Hne. unfold bind at 1. unfold loads. rewrite Hj.
      unfold bind.
      rewrite (@process_envelope d sender "create" g body st H1 H2 H3).
      simpl. now rewrite (Hcreate Hm). }
    assert (Hx : @Exc loop_exit e <> Val Blocked) by discriminate.
    destruct (@session_closing json_loads c sender [Val message] st _ _
                Hs Hx) as [Hf Hw].
    fold after in Hf, Hw. split; [exact Hw|].
    rewrite Hf, keeps_cleanup. simpl. apply get_set_same.
Qed.

Lemma directory_change_survives_failed_notice_witness :
  let st := {| clients := [("alice", 1)]; groups := [];
               wire := []; closed := []; faulty := [(1, BrokenPipeError)] |}
  in create_group "alice" "proj" st =
     (with_groups [("proj", ["alice"])] st, Exc BrokenPipeError).
Proof.
  intros st.
  exact (proj1 (@directory_change_survives_failed_notice
                  st "alice" "proj" 1 BrokenPipeError eq_refl eq_refl)
           eq_refl).
Defined.

Lemma registered_sockets_are_live_witness :
  let w := run sample_loads {| srv := boot []; threads := [] |}
             [Accept 1 (Val "alice"); Accept 2 (Val "bob");
              Recv 1 (Val "")] in
  is_closed (srv w) 2 = false.
Proof.
  intros w.
  exact (proj1 (@registered_sockets_are_live sample_loads []
                  [Accept 1 (Val "alice"); Accept 2 (Val "bob");
                   Recv 1 (Val "")] "bob" 2 eq_refl)).
Defined.

(** * The client: command lines *)

Lemma cut_spaceless u : has_space u = false -> cut u = (u, None).
Proof.
  induction u as [|c u IH]; simpl; auto.
  destruct (Ascii.eqb c " "); simpl; [discriminate|].
  intros H. now rewrite IH.
Qed.

Lemma cut_at u rest :
  has_space u = false -> cut (u ++ " " ++ rest) = (u, Some rest).
Proof.
  induction u as [|c u IH]; simpl in *; auto.
  destruct (Ascii.eqb c " "); simpl; [discriminate|].
  intros H. now rewrite IH.
Qed.

Lemma cut_some s : forall a r,
  cut s = (a, Some r) -> s = (a ++ " " ++ r)%string /\ has_space a = false.
Proof.
  induction s as [|c s IH]; simpl; intros a r; [discriminate|].
  destruct (Ascii.eqb c " ") eqn:E.
  - apply Ascii.eqb_eq in E. subst c. intros [= <- <-]. auto.
  - destruct (cut s) as [a' r'] eqn:C. intros [= <- ->].
    destruct (IH a' r eq_refl) as [-> H]. simpl. now rewrite E.
Qed.

Lemma cut_none s : forall a,
  cut s = (a, None) -> a = s /\ has_space s = false.
Proof.
  induction s as [|c s IH]; simpl; intros a.
  - intros [= <-]. auto.
  - destruct (Ascii.eqb c " ") eqn:E; [discriminate|].
    destruct (cut s) as [a' r'] eqn:C. intros [= <- ->].
    destruct (IH a' eq_refl) as [-> H]. auto.
Qed.

(** The three shapes of [message.split(" ", 2)]. *)
Lemma split_2_cases s :
  (split 2 s = [s] /\ has_space s = false) \/
  (exists a b,
     split 2 s = [a; b] /\ has_space a = false /\ has_space b = false /\
     s = (a ++ " " ++ b)%string) \/
  (exists a b c,
     split 2 s = [a; b; c] /\ has_space a = false /\ has_space b = false /\
     s = (a ++ " " ++ b ++ " " ++ c)%string).
Proof.
  simpl. destruct (cut s) as [a [r|]] eqn:C.
  - apply cut_some in C. destruct C as [-> Ha].
    destruct (cut r) as [b [r'|]] eqn:C'.
    + apply cut_some in C'. destruct C' as [-> Hb].
      right. right. now exists a, b, r'.
    + apply cut_none in C'. destruct C' as [-> Hb].
      right. left. now exists a, r.
  - apply cut_none in C. destruct C as [-> Hs]. now left.
Qed.

Lemma split_three a b c :
  has_space a = false -> has_space b = false ->
  split 2 (a ++ " " ++ b ++ " " ++ c) = [a; b; c].
Proof.
  intros Ha Hb. cbn [split].
  rewrite (cut_at a (b ++ " " ++ c) Ha). now rewrite (cut_at b c Hb).
Qed.

Lemma split_two a b :
  has_space a = false -> has_space b = false ->
  split 2 (a ++ " " ++ b) = [a; b].
Proof.
  intros Ha Hb. cbn [split].
  rewrite (cut_at a b Ha). now rewrite (cut_spaceless b Hb).
Qed.

Lemma has_space_cut g :
  has_space g = true ->
  exists a b, g = (a ++ " " ++ b)%string /\ has_space a = false.
Proof.
  intros H. destruct (cut g) as [a [r|]] eqn:C.
  - apply cut_some in C. now exists a, r.
  - apply cut_none in C. destruct C as [_ C]. congruence.
Qed.

Lemma append_assoc a b c : ((a ++ b) ++ c = a ++ b ++ c)%string.
Proof. induction a as [|x a IH]; simpl; auto. now rewrite IH. Qed.

Lemma interpret_private username target body :
  has_space target = false ->
  interpret username ("/private " ++ target ++ " " ++ body) =
  Send (message_to_json "private" username target body).
Proof.
  intros Ht. unfold interpret.
  change ("/private " ++ target ++ " " ++ body)%string
    with ("/private" ++ " " ++ target ++ " " ++ body)%string.
  rewrite split_three by (auto; reflexivity). reflexivity.
Qed.

Lemma interpret_group username target body :
  has_space target = false ->
  interpret username ("/group " ++ target ++ " " ++ body) =
  Send (message_to_json "group" username target body).
Proof.
  intros Ht. unfold interpret.
  change ("/group " ++ target ++ " " ++ body)%string
    with ("/group" ++ " " ++ target ++ " " ++ body)%string.
  rewrite split_three by (auto; reflexivity). reflexivity.
Qed.

Lemma interpret_create username g :
  has_space g = false ->
  interpret username ("/create " ++ g) =
  Send (message_to_json "create" username g "").
Proof.
  intros Hg. unfold interpret.
  change ("/create " ++ g)%string with ("/create" ++ " " ++ g)%string.
  rewrite split_two by (auto; reflexivity). reflexivity.
Qed.

Lemma interpret_join username g :
  has_space g = false ->
  interpret username ("/join " ++ g) =
  Send (message_to_json "join" username g "").
Proof.
  intros Hg. unfold interpret.
  change ("/join " ++ g)%string with ("/join" ++ " " ++ g)%string.
  rewrite split_two by (auto; reflexivity). reflexivity.
Qed.

(** X8.  A line [/private <name> <text>] or [/group <name> <text>], with
    a name that holds no space, is sent as the private or group message
    of the user to that name, with everything behind the second space as
    its text, further spaces included; the text may be empty, and so may
    the name. *)
Theorem private_and_group_commands (username target body : string) :
  has_space target = false ->
  interpret username ("/private " ++ target ++ " " ++ body) =
  Send (message_to_json "private" username target body) /\
  interpret username ("/group " ++ target ++ " " ++ body) =
  Send (message_to_json "group" username target body).
Proof.
  intros Ht. split.
  - now apply interpret_private.
  - now apply interpret_group.
Qed.

Lemma private_and_group_commands_witness :
  interpret "alice" "/private bob see you at  five" =
  Send (message_to_json "private" "alice" "bob" "see you at  five").
Proof.
  exact (proj1 (@private_and_group_commands
                  "alice" "bob" "see you at  five" eq_refl)).
Defined.

(** X9.  A line [/create <name>] or [/join <name>] is sent, with an empty
    text, exactly when the name holds no space (the empty name is sent
    too); with a space in the name the line is an invalid command and
    nothing is sent: a group whose name holds a space cannot be created
    or joined from this client. *)
Theorem create_and_join_commands (username g : string) :
  (has_space g = false ->
   interpret username ("/create " ++ g) =
   Send (message_to_json "create" username g "") /\
   interpret username ("/join " ++ g) =
   Send (message_to_json "join" username g "")) /\
  (has_space g = true ->
   interpret username ("/create " ++ g) = Invalid /\
   interpret username ("/join " ++ g) = Invalid).
Proof.
  split.
  - intros Hg. split.
    + now apply interpret_create.
    + now apply interpret_join.
  - intros Hg. destruct (has_space_cut g Hg) as (a & b & -> & Ha).
    split; unfold interpret.
    + change ("/create " ++ a ++ " " ++ b)%string
        with ("/create" ++ " " ++ a ++ " " ++ b)%string.
      rewrite split_three by (auto; reflexivity). reflexivity.
    + change ("/join " ++ a ++ " " ++ b)%string
        with ("/join" ++ " " ++ a ++ " " ++ b)%string.
      rewrite split_three by (auto; reflexivity). reflexivity.
Qed.

Lemma create_and_join_commands_witness :
  interpret "alice" "/create reading group" = Invalid.
Proof.
  exact (proj1 (proj2 (create_and_join_commands "alice" "reading group")
                  eq_refl)).
Defined.

(** X10.  Whatever the user types, a message that the client sends has
    one of the four kinds the server dispatches, the user's own name as
    its sender, and a target without a space; a [create] or a [join] has
    an empty text; and the line typed is the command, the target and, for
    [private] and [group], the text, with single spaces between them. *)
Theorem client_sends_only_the_four_kinds (username message : string)
  (m : msg_data) :
  interpret username message = Send m ->
  known_kind (status m) = true /\
  sender m = username /\
  has_space (receiver m) = false /\
  ((status m = "private" \/ status m = "group") /\
   message = ("/" ++ status m ++ " " ++ receiver m ++ " " ++ text m)%string
   \/
   (status m = "create" \/ status m = "join") /\ text m = "" /\
   message = ("/" ++ status m ++ " " ++ receiver m)%string).
Proof.
  unfold interpret.
  destruct (String.eqb (lower message) "/exit"); [discriminate|].
  destruct (split_2_cases message)
    as [[E Hs] | [(a & b & E & Ha & Hb & Hm) | (a & b & c & E & Ha & Hb & Hm)]];
    rewrite E; cbn [nth length Nat.eqb andb].
  - rewrite !andb_false_r.
    destruct (String.eqb message "/help"); discriminate.
  - rewrite !andb_false_r, !andb_true_r.
    destruct (String.eqb a "/create") eqn:K1.
    { apply String.eqb_eq in K1. subst a. intros [= <-]. simpl.
      split; [reflexivity|]. split; [reflexivity|]. split; [assumption|].
      right. auto. }
    destruct (String.eqb a "/join") eqn:K2; [|discriminate].
    apply String.eqb_eq in K2. subst a. intros [= <-]. simpl.
    split; [reflexivity|]. split; [reflexivity|]. split; [assumption|].
    right. auto.
  - rewrite !andb_false_r, !andb_true_r.
    destruct (String.eqb a "/private") eqn:K1.
    { apply String.eqb_eq in K1. subst a. intros [= <-]. simpl.
      split; [reflexivity|]. split; [reflexivity|]. split; [assumption|].
      left. auto. }
    destruct (String.eqb a "/group") eqn:K2; [|discriminate].
    apply String.eqb_eq in K2. subst a. intros [= <-]. simpl.
    split; [reflexivity|]. split; [reflexivity|]. split; [assumption|].
    left. auto.
Qed.

Lemma client_sends_only_the_four_kinds_witness :
  known_kind "join" = true /\
  "alice" = "alice" /\
  has_space "proj" = false /\
  (("join" = "private" \/ "join" = "group") /\
   "/join proj" = "/join proj " \/
   ("join" = "create" \/ "join" = "join") /\ "" = "" /\
   "/join proj" = "/join proj").
Proof.
  exact (@client_sends_only_the_four_kinds "alice" "/join proj"
           (message_to_json "join" "alice" "proj" "") eq_refl).
Defined.

(** X11.  A line that is [/exit] in any mix of upper and lower case ends
    the loop of the client: whatever is typed after it has no effect. *)
Theorem nothing_is_sent_after_exit (username line : string)
  (before rest : list string) :
  lower line = "/exit" ->
  client_loop username (before ++ line :: rest) =
  client_loop username (before ++ [line]) /\
  client_loop username (line :: rest) = [Exit].
Proof.
  intros H.
  assert (Hi : interpret username line = Exit).
  { unfold interpret. now rewrite H. }
  split.
  - induction before as [|l before IH]; simpl.
    + now rewrite Hi.
    + destruct (interpret username l); auto; now rewrite IH.
  - simpl. now rewrite Hi.
Qed.

Lemma nothing_is_sent_after_exit_witness :
  client_loop "alice" (["/help"] ++ "/ExIt" :: ["/private bob hi"]) =
  client_loop "alice" (["/help"] ++ ["/ExIt"]).
Proof.
  exact (proj1 (@nothing_is_sent_after_exit "alice" "/ExIt" ["/help"]
                  ["/private bob hi"] eq_refl)).
Defined.

(** * The client: what is shown *)

Lemma display_as_dict m : display (JObject (as_dict m)) = Val (shown m).
Proof.
  unfold display, shown, item, and_then. simpl.
  destruct (String.eqb (status m) "group"); auto.
  destruct (String.eqb (status m) "private"); auto.
Qed.

Lemma receive_carried json_loads message m rest :
  carries json_loads message m ->
  receive_messages json_loads (Val message :: rest) =
  (shown m :: fst (receive_messages json_loads rest),
   snd (receive_messages json_loads rest)).
Proof.
  intros [Hne Hj]. simpl. rewrite Hne, Hj. simpl.
  rewrite display_as_dict.
  now destruct (receive_messages json_loads rest).
Qed.

Lemma receive_all_carried json_loads texts ms tail :
  Forall2 (carries json_loads) texts ms ->
  receive_messages json_loads (map Val texts ++ tail) =
  (map shown ms ++ fst (receive_messages json_loads tail),
   snd (receive_messages json_loads tail)).
Proof.
  induction 1 as [|t m texts ms Hc _ IH].
  - simpl. now destruct (receive_messages json_loads tail).
  - cbn [map app]. rewrite (receive_carried _ Hc). rewrite IH.
    reflexivity.
Qed.

(** X12.  For every message that the server builds, the client prints its
    line: a group message with the group and the sender, a private
    message with the sender, anything else with the sender alone (for a
    notice, [SERVER]).  As long as such messages arrive, one to a read,
    the client prints one line for each and keeps listening; a
    zero-length read then ends the loop without a further line. *)
Theorem server_messages_are_shown
  (json_loads : string -> result json_value)
  (texts : list string) (ms : list msg_data) :
  Forall2 (carries json_loads) texts ms ->
  receive_messages json_loads (map Val texts) = (map shown ms, false) /\
  (forall rest,
     receive_messages json_loads (map Val texts ++ Val "" :: rest) =
     (map shown ms, true)).
Proof.
  intros H. split.
  - rewrite <- (app_nil_r (map Val texts)).
    rewrite (receive_all_carried [] H). simpl. now rewrite app_nil_r.
  - intros rest. rewrite (receive_all_carried (Val "" :: rest) H).
    simpl. now rewrite app_nil_r.
Qed.

(** X13.  The client gives up at the first read that it cannot show: a
    failing [recv], a text that is no JSON, a value that is no dict, a
    dict without [status], without [sender] or [text], or a group message
    without [receiver].  It prints [Connection lost] after the lines it
    has shown and leaves the loop; nothing that arrives later is shown. *)
Theorem client_stops_at_first_failure
  (json_loads : string -> result json_value)
  (texts : list string) (ms : list msg_data)
  (r : result string) (rest : list (result string)) :
  Forall2 (carries json_loads) texts ms ->
  unreadable json_loads r = true ->
  receive_messages json_loads (map Val texts ++ r :: rest) =
  (map shown ms ++ ["Connection lost"], true).
Proof.
  intros H Hr. rewrite (receive_all_carried (r :: rest) H).
  assert (E : receive_messages json_loads (r :: rest) =
              (["Connection lost"], true)).
  { destruct r as [message|e]; simpl in *; auto.
    destruct (String.eqb message ""); simpl in Hr; [discriminate|].
    now destruct (and_then (json_loads message) display). }
  now rewrite E.
Qed.

Lemma unreadable_without_sender json_loads message d :
  String.eqb message "" = false ->
  json_loads message = Val (JObject d) ->
  get d "status" = None \/ get d "sender" = None \/ get d "text" = None ->
  unreadable json_loads (Val message) = true.
Proof.
  intros Hne Hj H. simpl. rewrite Hne, Hj. simpl.
  unfold display, item, and_then.
  destruct (get d "status") as [kind|]; auto.
  destruct (String.eqb kind "group").
  - destruct (get d "receiver"); auto.
    destruct (get d "sender"); auto.
    destruct (get d "text"); auto.
    destruct H as [H | [H | H]]; discriminate.
  - destruct (String.eqb kind "private");
      destruct (get d "sender"); auto;
      destruct (get d "text"); auto;
      destruct H as [H | [H | H]]; discriminate.
Qed.

Lemma server_messages_are_shown_witness :
  receive_messages sample_loads (map Val ["/group proj hi"]) =
  (map shown [message_to_json "group" "alice" "proj" "hi"], false).
Proof.
  refine (proj1 (@server_messages_are_shown sample_loads ["/group proj hi"]
                   [message_to_json "group" "alice" "proj" "hi"] _)).
  repeat constructor.
Defined.

Lemma client_stops_at_first_failure_witness :
  receive_messages sample_loads
    (map Val ["/group proj hi"] ++ Val "{" :: [Val "/group proj hi"]) =
  (map shown [message_to_json "group" "alice" "proj" "hi"] ++
   ["Connection lost"], true).
Proof.
  refine (@client_stops_at_first_failure sample_loads ["/group proj hi"]
            [message_to_json "group" "alice" "proj" "hi"] (Val "{")
            [Val "/group proj hi"] _ eq_refl).
  repeat constructor.
Defined.

(** * From the keyboard of one client to the screen of another

    The text that one side sends is [json.dumps] of a dict and the other
    side reads it with [json.loads]; below, what is read is the dict that
    was sent. *)

Lemma process_as_dict m user st :
  process_message (JObject (as_dict m)) user st =
  if String.eqb (status m) "private"
  then send_private_message user (receiver m) (text m) st
  else if String.eqb (status m) "group"
  then send_group_message user (receiver m) (text m) st
  else if String.eqb (status m) "create" then create_group user (receiver m) st
  else if String.eqb (status m) "join" then join_group user (receiver m) st
  else (st, Val tt).
Proof.
  now apply (@process_envelope (as_dict m) user (status m) (receiver m)
               (text m) st).
Qed.





(** X16.  The confirmations of [/create] and [/join] as the user sees
    them: for a name without a space, typed by a registered user, the
    client shows [[SERVER] Group <name> created successfully.] when the
    group was absent and [[SERVER] Group <name> already exists.] when it
    was there; [[SERVER] Group <name> does not exist.] for a [join] of an
    absent group. *)
Theorem create_and_join_lines_end_to_end
  (st : server) (username g : string) (s : sock) :
  has_space g = false ->
  lookup st username = Some s ->
  writable st s = true ->
  (exists m m' st',
     interpret username ("/create " ++ g) = Send m /\
     process_message (JObject (as_dict m)) username st =
     (wrote [(s, m')] st', Val tt) /\
     clients st' = clients st /\
     display (JObject (as_dict m')) =
     Val (if mem (groups st) g
          then "[SERVER] Group " ++ g ++ " already exists."
          else "[SERVER] Group " ++ g ++ " created successfully.")%string /\
     get (groups st') g =
     (if mem (groups st) g then get (groups st) g else Some [username])) /\
  (get (groups st) g = None ->
   exists m m',
     interpret username ("/join " ++ g) = Send m /\
     process_message (JObject (as_dict m)) username st =
     (wrote [(s, m')] st, Val tt) /\
     display (JObject (as_dict m')) =
     Val ("[SERVER] Group " ++ g ++ " does not exist.")%string).
Proof.
  intros Hg Hl Hw.
  pose proof (@interpret_create username g Hg) as Hc.
  pose proof (@interpret_join username g Hg) as Hj.
  split.
  - exists (message_to_json "create" username g "").
    destruct (mem (groups st) g) eqn:Hm.
    + exists (notice username ("Group " ++ g ++ " already exists.")), st.
      split; [exact Hc|]. split; [|repeat split].
      rewrite process_as_dict. simpl.
      rewrite create_taken by exact Hm. now apply notice_delivered.
    + exists (notice username ("Group " ++ g ++ " created successfully.")),
             (with_groups (set (groups st) g [username]) st).
      split; [exact Hc|]. split; [|repeat split].
      * rewrite process_as_dict. simpl.
        rewrite create_fresh by exact Hm. now apply notice_delivered.
      * simpl. apply get_set_same.
  - intros Hn.
    exists (message_to_json "join" username g ""),
           (notice username ("Group " ++ g ++ " does not exist.")).
    split; [exact Hj|]. split; [|reflexivity].
    rewrite process_as_dict. simpl.
    rewrite join_missing by exact Hn. now apply notice_delivered.
Qed.

Lemma create_and_join_lines_end_to_end_witness :
  let st := {| clients := [("alice", 1)]; groups := [];
               wire := []; closed := []; faulty := [] |} in
  exists m m',
    interpret "alice" "/join proj" = Send m /\
    process_message (JObject (as_dict m)) "alice" st =
    (wrote [(1, m')] st, Val tt) /\
    display (JObject (as_dict m')) = Val "[SERVER] Group proj does not exist.".
Proof.
  intros st.
  exact (proj2 (@create_and_join_lines_end_to_end st "alice" "proj" 1
                  eq_refl eq_refl eq_refl) eq_refl).
Defined.
